(** * Dreadlock: the lock-tracking protocol of Dreadlock.cpp / Dreadlock.h

    A shallow embedding of the class [Dreadlock]: the static tracking map,
    the real mutexes it wraps, and the member functions [get_module_name],
    [lock], [unlock], [destruct], the constructor and the destructor.

    Every region the source runs while it owns [tracking_mutex] is one
    function on the shared state; the body of [lock] is cut at the places
    where it gives [tracking_mutex] up, so that other threads can be
    interleaved exactly where the source lets them in. *)

From Stdlib Require Import ZArith NArith String Ascii List Lia.
From stdpp Require Import base option list gmap strings.

Local Open Scope Z_scope.
Local Open Scope string_scope.

(** ** Configuration constants (Dreadlock.h, lines 49-66) *)

Record Config := {
  AssertOnDeadlock : bool;
  PerformanceTimeout : Z;
  DeadlockTimeout : Z;
  ShortModuleNames : bool;
  (* the preprocessor switch DREADLOCK_VERBOSE *)
  Verbose : bool
}.

(** The values the header ships with. *)
Definition header_config : Config := {|
  AssertOnDeadlock := true;
  PerformanceTimeout := 1000;
  DeadlockTimeout := 5000;
  ShortModuleNames := true;
  Verbose := false
|}.

(** ** get_module_name (Dreadlock.cpp, lines 81-87)

    The function splits its argument with
    [std::sregex_token_iterator it{begin, end, regex, -1}] for the regular
    expression [[\\/]+] and returns [items.back()].  The library part is
    modelled after the iterator's specification: submatch -1 enumerates,
    for every match, the text between the previous match and this one;
    when there is no match at all the iterator is a suffix iterator over
    the whole input (also when the input is empty); after the last match
    the rest of the input is one more token only when its length is not
    zero. *)

Definition is_separator (c : ascii) : bool :=
  (Ascii.eqb c "/" || Ascii.eqb c "\")%bool.

(** The greedy [+]: a match extends over the whole run of separators. *)
Fixpoint skip_separators (s : string) : string :=
  match s with
  | EmptyString => EmptyString
  | String c s' => if is_separator c then skip_separators s' else s
  end.

(** [regex_search]: the leftmost match; the result is the text before the
    match (its prefix) and the text after it (its suffix). *)
Fixpoint regex_search (s : string) : option (string * string) :=
  match s with
  | EmptyString => None
  | String c s' =>
      if is_separator c then Some (EmptyString, skip_separators s')
      else match regex_search s' with
           | Some (p, r) => Some (String c p, r)
           | None => None
           end
  end.

(** [operator++] of the token iterator, repeated until end-of-sequence;
    [suffix] is the suffix of the previous match.  Every match consumes
    at least one character, so [fuel] above the length of the suffix is
    never used up ([later_tokens_fuel] below). *)
Fixpoint later_tokens (fuel : nat) (suffix : string) : list string :=
  match fuel with
  | O => []
  | S fuel' =>
      match regex_search suffix with
      | Some (p, r) => p :: later_tokens fuel' r
      | None =>
          match suffix with
          | EmptyString => []
          | _ => [suffix]
          end
      end
  end.

(** The vector [items{it, {}}]. *)
Definition tokens (path : string) : list string :=
  match regex_search path with
  | None => [path]
  | Some (p, r) => p :: later_tokens (S (String.length r)) r
  end.

(** [items.back()]; [None] stands for the undefined behaviour of [back]
    on an empty vector. *)
Definition vector_back (items : list string) : option string := last items.

Definition get_module_name (path : string) : option string :=
  vector_back (tokens path).

(** A path separator occurs in [s]. *)
Fixpoint has_separator (s : string) : bool :=
  match s with
  | EmptyString => false
  | String c s' => (is_separator c || has_separator s')%bool
  end.

(** ** Data (Dreadlock.h, lines 90-121) *)

(** [struct LockInfo]. *)
Record LockInfo := {
  dreadlock_id : N;       (* uint32_t *)
  lock_file : string;
  lock_line : Z           (* int *)
}.

(** [LockInfo()]: the value [std::map::operator[]] would insert. *)
Definition LockInfo_default : LockInfo :=
  {| dreadlock_id := 0; lock_file := ""; lock_line := 0 |}.

(** A node of the [std::map]: the mapped [LockInfo] together with the
    address it lives at.  [lock] keeps [LockInfo* info] across regions in
    which it does not own [tracking_mutex]; a node is freed by [erase],
    and addresses are handed out fresh, so a pointer can be told apart
    from a later node under the same key. *)
Record Node := {
  node_addr : N;
  node_info : LockInfo
}.

(** [LockInfo*] into the node of a given key. *)
Record Ptr := {
  ptr_key : N;
  ptr_addr : N
}.

(** Who has the real [std::mutex] locked: the thread of a Dreadlock
    instance (through [mtx.try_lock()]), or code that uses the mutex
    without Dreadlock. *)
Inductive Owner :=
| ByDreadlock (did : N)
| External.

(** The static members and the mutexes the instances refer to.  A mutex
    is named by its address, which is also its key in the tracking map
    ([mtx_key = reinterpret_cast<size_t>(&mtx)]). *)
Record Global := {
  next_id : N;
  tracking : gmap N Node;
  next_addr : N;
  mutexes : gmap N Owner
}.

Definition initial : Global :=
  {| next_id := 0; tracking := ∅; next_addr := 0; mutexes := ∅ |}.

(** The data members of one instance. *)
Record Dreadlock := {
  this_dreadlock : N;
  id : string;
  mtx_key : N;
  destruct_file : string;
  destruct_line : Z
}.

(** What an instance writes to [std::cout], one constructor per message. *)
Inductive Event :=
| EvLocking (name file : string) (line : Z)
| EvIllegalLock (name module : string) (line : Z)
    (held_file : string) (held_line : Z)
| EvAttempting (name module : string) (line : Z)
    (held_file : string) (held_line : Z)
| EvWaited (name module : string) (line : Z) (timeout : Z)
    (held : option (string * Z))
| EvDeadlock (name module : string) (line : Z)
    (held_file : string) (held_line : Z)
| EvUnlocking (name module : string) (line : Z)
    (held_file : string) (held_line : Z)
| EvUnowned (name module : string) (line : Z)
| EvIllegalUnlock (name : string) (by_id : N) (module : string) (line : Z)
    (holder : N) (held_file : string) (held_line : Z).

Inductive Fault :=
| NullDereference
| DanglingDereference
| BackOfEmptyVector.

(** How a member function ends.  [assert] is the one of <assert.h> in a
    build without NDEBUG, the build Dreadlock is made for. *)
Inductive Status :=
| Returned
| AssertionFailed
| UndefinedBehaviour (f : Fault).

(** ** The operations on [tracking] and on the mutex *)

Definition set_tracking (t : gmap N Node) (g : Global) : Global :=
  {| next_id := next_id g; tracking := t;
     next_addr := next_addr g; mutexes := mutexes g |}.

Definition set_mutexes (m : gmap N Owner) (g : Global) : Global :=
  {| next_id := next_id g; tracking := tracking g;
     next_addr := next_addr g; mutexes := m |}.

(** Allocation of a map node. *)
Definition new_node (k : N) (v : LockInfo) (g : Global) : Global :=
  {| next_id := next_id g;
     tracking := <[k := {| node_addr := next_addr g; node_info := v |}]> (tracking g);
     next_addr := N.succ (next_addr g);
     mutexes := mutexes g |}.

(** [tracking.find(k) != tracking.end()] *)
Definition map_contains (k : N) (g : Global) : bool :=
  match tracking g !! k with
  | Some _ => true
  | None => false
  end.

(** [tracking.emplace(k, v)]: no effect when the key is present. *)
Definition map_emplace (k : N) (v : LockInfo) (g : Global) : Global :=
  match tracking g !! k with
  | Some _ => g
  | None => new_node k v g
  end.

(** [tracking[k]]: [operator[]] inserts a default [LockInfo] when the key
    is absent.  The result is the reference (its address, for
    [info = &tracking[k]]) and the value it refers to at this moment. *)
Definition map_subscript (k : N) (g : Global) : Ptr * LockInfo * Global :=
  match tracking g !! k with
  | Some n => ({| ptr_key := k; ptr_addr := node_addr n |}, node_info n, g)
  | None => ({| ptr_key := k; ptr_addr := next_addr g |}, LockInfo_default,
             new_node k LockInfo_default g)
  end.

(** [tracking.erase(k)] *)
Definition map_erase (k : N) (g : Global) : Global :=
  set_tracking (delete k (tracking g)) g.

(** Reading through a [LockInfo*]: defined while the node is in the map. *)
Definition deref (p : Ptr) (g : Global) : option LockInfo :=
  match tracking g !! ptr_key p with
  | Some n => if N.eqb (node_addr n) (ptr_addr p) then Some (node_info n) else None
  | None => None
  end.

(** [mtx.try_lock()] by the thread of instance [did]. *)
Definition try_lock (did : N) (k : N) (g : Global) : option Global :=
  match mutexes g !! k with
  | Some _ => None
  | None => Some (set_mutexes (<[k := ByDreadlock did]> (mutexes g)) g)
  end.

(** [mtx.unlock()] *)
Definition mtx_unlock (k : N) (g : Global) : Global :=
  set_mutexes (delete k (mutexes g)) g.

(** ** The member functions *)

(** The locals of [lock] that live across its wait loop. *)
Record Locals := {
  loc_module : string;
  loc_line : Z;
  info : option Ptr;             (* LockInfo* info; None is nullptr *)
  start : Z;                     (* steady_clock reading, nanoseconds *)
  reported_performance : bool
}.

Definition set_reported (l : Locals) : Locals :=
  {| loc_module := loc_module l; loc_line := loc_line l; info := info l;
     start := start l; reported_performance := true |}.

(** Where a call of [lock] stands between two of its regions. *)
Inductive LockPc :=
| AtLoopTop (l : Locals)      (* line 176, about to sleep and take the lock *)
| AtTimeCheck (l : Locals)    (* line 196, tracking_mutex given up *)
| AtPostLoop (l : Locals)     (* line 230 *)
| Finished (s : Status).

(** [duration_cast<milliseconds>(now - start).count()] *)
Definition elapsed_ms (start now : Z) : Z := Z.quot (now - start) 1000000.

(** [__LINE__] in the destructor. *)
Definition dtor_line : Z := 65.
Definition dtor_marker : string := "Dreadlock::~Dreadlock()".

Section Members.

Variable cfg : Config.

(** [auto module{file}; if (ShortModuleNames) module = get_module_name(file);] *)
Definition module_of (file : string) : option string :=
  if ShortModuleNames cfg then get_module_name file else Some file.

(** [is_locked && tracking[mtx_key].dreadlock_id == this_dreadlock], with
    [is_locked] as just computed. *)
Definition locked_by_me (h : Dreadlock) (g : Global) : bool * Global :=
  if map_contains (mtx_key h) g then
    let '(_, v, g1) := map_subscript (mtx_key h) g in
    (N.eqb (dreadlock_id v) (this_dreadlock h), g1)
  else (false, g).

Definition my_info (h : Dreadlock) (l_module : string) (l_line : Z) : LockInfo :=
  {| dreadlock_id := this_dreadlock h; lock_file := l_module; lock_line := l_line |}.

(** [lock], lines 91-98: printed first when DREADLOCK_VERBOSE is defined. *)
Definition banner (h : Dreadlock) (file : string) (line : Z) : list Event :=
  if Verbose cfg then [EvLocking (id h) file line] else [].

(** [lock], lines 91-172: from the call to the first
    [tracking_lock.unlock()].  [now] is the clock reading of line 168. *)
Definition lock_entry (h : Dreadlock) (file : string) (line : Z) (now : Z)
    (g : Global) : LockPc * Global * list Event :=
  let banner := banner h file line in
  match module_of file with
  | None => (Finished (UndefinedBehaviour BackOfEmptyVector), g, banner)
  | Some module =>
      let is_locked := map_contains (mtx_key h) g in
      match (if is_locked then None
             else try_lock (this_dreadlock h) (mtx_key h) g) with
      | Some g1 =>
          (Finished Returned,
           map_emplace (mtx_key h) (my_info h module line) g1, banner)
      | None =>
          if is_locked then
            let '(p, v, g1) := map_subscript (mtx_key h) g in
            if N.eqb (dreadlock_id v) (this_dreadlock h) then
              (Finished AssertionFailed, g1,
               (banner ++ [EvIllegalLock (id h) module line (lock_file v) (lock_line v)])%list)
            else
              (AtLoopTop {| loc_module := module; loc_line := line;
                            info := Some p; start := now;
                            reported_performance := false |},
               g1,
               (banner ++ (if Verbose cfg
                           then [EvAttempting (id h) module line (lock_file v) (lock_line v)]
                           else []))%list)
          else
            (AtLoopTop {| loc_module := module; loc_line := line;
                          info := None; start := now;
                          reported_performance := false |},
             g, banner)
      end
  end.

(** [lock], lines 176-194: one pass under [tracking_mutex]. *)
Definition loop_top (h : Dreadlock) (l : Locals) (g : Global)
    : LockPc * Global * list Event :=
  if map_contains (mtx_key h) g then (AtTimeCheck l, g, [])
  else
    match try_lock (this_dreadlock h) (mtx_key h) g with
    | Some g1 =>
        (AtPostLoop l,
         map_emplace (mtx_key h) (my_info h (loc_module l) (loc_line l)) g1, [])
    | None => (AtPostLoop l, g, [])
    end.

(** [lock], lines 196-227: the two timeouts, read without [tracking_mutex]. *)
Definition time_check (h : Dreadlock) (l : Locals) (now : Z) (g : Global)
    : LockPc * Global * list Event :=
  let elapsed := elapsed_ms (start l) now in
  if Z.leb (DeadlockTimeout cfg) elapsed then (AtPostLoop l, g, [])
  else if (negb (Z.eqb (PerformanceTimeout cfg) 0)
           && negb (reported_performance l)
           && Z.leb (PerformanceTimeout cfg) elapsed)%bool then
    match info l with
    | None =>
        (AtLoopTop (set_reported l), g,
         [EvWaited (id h) (loc_module l) (loc_line l) (PerformanceTimeout cfg) None])
    | Some p =>
        match deref p g with
        | Some v =>
            (AtLoopTop (set_reported l), g,
             [EvWaited (id h) (loc_module l) (loc_line l) (PerformanceTimeout cfg)
                (Some (lock_file v, lock_line v))])
        | None => (Finished (UndefinedBehaviour DanglingDereference), g, [])
        end
    end
  else (AtLoopTop l, g, []).

(** [lock], lines 230-256. *)
Definition lock_post (h : Dreadlock) (l : Locals) (g : Global)
    : LockPc * Global * list Event :=
  let '(mine, g1) := locked_by_me h g in
  if mine then (Finished Returned, g1, [])
  else
    match info l with
    | None => (Finished (UndefinedBehaviour NullDereference), g1, [])
    | Some p =>
        match deref p g1 with
        | None => (Finished (UndefinedBehaviour DanglingDereference), g1, [])
        | Some v =>
            (Finished (if AssertOnDeadlock cfg then AssertionFailed else Returned),
             g1,
             [EvDeadlock (id h) (loc_module l) (loc_line l) (lock_file v) (lock_line v)])
        end
    end.

(** One region of a call in progress. *)
Definition lock_step (h : Dreadlock) (pc : LockPc) (now : Z) (g : Global)
    : LockPc * Global * list Event :=
  match pc with
  | AtLoopTop l => loop_top h l g
  | AtTimeCheck l => time_check h l now g
  | AtPostLoop l => lock_post h l g
  | Finished s => (Finished s, g, [])
  end.

(** [unlock], lines 259-338. *)
Definition unlock (h : Dreadlock) (file : string) (line : Z) (g : Global)
    : Status * Global * list Event :=
  match module_of file with
  | None => (UndefinedBehaviour BackOfEmptyVector, g, [])
  | Some module =>
      let is_locked := map_contains (mtx_key h) g in
      let '(mine, g1) := locked_by_me h g in
      if mine then
        let '(report, g2) :=
          if Verbose cfg then
            let '(_, v, g2) := map_subscript (mtx_key h) g1 in
            ([EvUnlocking (id h) module line (lock_file v) (lock_line v)], g2)
          else ([], g1) in
        (Returned, map_erase (mtx_key h) (mtx_unlock (mtx_key h) g2), report)
      else if negb is_locked then
        (AssertionFailed, g1, [EvUnowned (id h) module line])
      else
        let '(_, v, g2) := map_subscript (mtx_key h) g1 in
        (AssertionFailed, g2,
         [EvIllegalUnlock (id h) (this_dreadlock h) module line
            (dreadlock_id v) (lock_file v) (lock_line v)])
  end.

End Members.

(** [destruct], Dreadlock.h lines 164-168. *)
Definition Dreadlock_destruct (h : Dreadlock) (file : string) (line : Z) : Dreadlock :=
  {| this_dreadlock := this_dreadlock h; id := id h; mtx_key := mtx_key h;
     destruct_file := file; destruct_line := line |}.

(** The constructor, lines 42-48: the instance takes the next id while it
    owns [tracking_mutex]. *)
Definition take_id (key : N) (name : string) (g : Global) : Dreadlock * Global :=
  ({| this_dreadlock := next_id g; id := name; mtx_key := key;
      destruct_file := ""; destruct_line := 0 |},
   {| next_id := (next_id g + 1) mod 2 ^ 32; tracking := tracking g;
      next_addr := next_addr g; mutexes := mutexes g |})%N.

(** The arguments the destructor passes to [unlock], line 65. *)
Definition dtor_file (h : Dreadlock) : string :=
  match destruct_file h with
  | EmptyString => dtor_marker
  | _ => destruct_file h
  end.

Definition dtor_unlock_line (h : Dreadlock) : Z :=
  if Z.eqb (destruct_line h) 0 then dtor_line else destruct_line h.

(** ** Threads

    The regions above are the grain at which threads interleave.  An
    [Act] is one region run by some instance, or a use of a real mutex by
    code that does not go through Dreadlock.  A region of a call in
    progress comes with the locals of that call, so that a list of acts
    can resume the call of any thread at any point; this covers every
    interleaving of real calls. *)

Inductive Act :=
| ActCtor (key : N) (name : string)
| ActLockEntry (h : Dreadlock) (file : string) (line : Z) (now : Z)
| ActLockStep (h : Dreadlock) (pc : LockPc) (now : Z)
| ActUnlock (h : Dreadlock) (file : string) (line : Z)
| ActDtorCheck (h : Dreadlock)
| ActExternalLock (k : N)
| ActExternalUnlock (k : N).

(** The instance an act belongs to. *)
Definition actor (a : Act) : option Dreadlock :=
  match a with
  | ActLockEntry h _ _ _ | ActLockStep h _ _ | ActUnlock h _ _ | ActDtorCheck h => Some h
  | ActCtor _ _ | ActExternalLock _ | ActExternalUnlock _ => None
  end.

Definition is_unlock (a : Act) : bool :=
  match a with
  | ActUnlock _ _ _ => true
  | _ => false
  end.

(** A failed [assert] and undefined behaviour end the process. *)
Definition status_alive (s : Status) : bool :=
  match s with
  | Returned => true
  | AssertionFailed | UndefinedBehaviour _ => false
  end.

Definition pc_alive (pc : LockPc) : bool :=
  match pc with
  | Finished s => status_alive s
  | _ => true
  end.

Section Threads.

Variable cfg : Config.

(** The state an act leaves behind, and whether the process goes on. *)
Definition perform (a : Act) (g : Global) : Global * bool :=
  match a with
  | ActCtor key name => ((take_id key name g).2, true)
  | ActLockEntry h file line now =>
      let '(pc, g1, _) := lock_entry cfg h file line now g in (g1, pc_alive pc)
  | ActLockStep h pc now =>
      let '(pc1, g1, _) := lock_step cfg h pc now g in (g1, pc_alive pc1)
  | ActUnlock h file line =>
      let '(s, g1, _) := unlock cfg h file line g in (g1, status_alive s)
  | ActDtorCheck h => ((locked_by_me h g).2, true)
  | ActExternalLock k =>
      match mutexes g !! k with
      | None => (set_mutexes (<[k := External]> (mutexes g)) g, true)
      | Some _ => (g, true)
      end
  | ActExternalUnlock k =>
      match mutexes g !! k with
      | Some External => (mtx_unlock k g, true)
      | _ => (g, true)
      end
  end.

(** What other threads do between two regions of the thread observed;
    [None] when one of them ends the process. *)
Fixpoint interfere (acts : list Act) (g : Global) : option Global :=
  match acts with
  | [] => Some g
  | a :: acts' =>
      let '(g1, alive) := perform a g in
      if alive then interfere acts' g1 else None
  end.

(** One turn of the thread observed: what the others did before it, and
    the clock reading it takes if the region reads the clock. *)
Record Tick := {
  before : list Act;
  clock : Z
}.

(** A call of [lock] carried on from [pc] along a schedule.  The result
    is where the call stands when the schedule is used up (or the call
    has finished, or another thread has ended the process), the state,
    and what this call has printed. *)
Fixpoint run_lock (h : Dreadlock) (pc : LockPc) (sched : list Tick) (g : Global)
    : LockPc * Global * list Event :=
  match pc, sched with
  | Finished _, _ => (pc, g, [])
  | _, [] => (pc, g, [])
  | _, t :: sched' =>
      match interfere (before t) g with
      | None => (pc, g, [])
      | Some g1 =>
          let '(pc1, g2, ev) := lock_step cfg h pc (clock t) g1 in
          let '(pc2, g3, ev') := run_lock h pc1 sched' g2 in
          (pc2, g3, (ev ++ ev')%list)
      end
  end.

(** [lock(file, line)] called in state [g] at clock reading [now]. *)
Definition lock (h : Dreadlock) (file : string) (line : Z) (now : Z)
    (sched : list Tick) (g : Global) : LockPc * Global * list Event :=
  let '(pc, g1, ev) := lock_entry cfg h file line now g in
  let '(pc1, g2, ev') := run_lock h pc sched g1 in
  (pc1, g2, (ev ++ ev')%list).

(** The constructor, lines 42-52: after the id is taken, [lock(file, line)]
    is called unless [defer]; [between] is what other threads do in
    between.  [None] when one of them ends the process first. *)
Definition Dreadlock_ctor (key : N) (name file : string) (line : Z) (defer : bool)
    (now : Z) (between : list Act) (sched : list Tick) (g : Global)
    : Dreadlock * option (LockPc * Global * list Event) :=
  let '(h, g1) := take_id key name g in
  if defer then (h, Some (Finished Returned, g1, []))
  else
    match interfere between g1 with
    | Some g2 => (h, Some (lock h file line now sched g2))
    | None => (h, None)
    end.

(** The destructor, lines 54-66; [between] is what other threads do
    after line 62 and before [unlock] takes [tracking_mutex] again.
    [None] when one of them ends the process first. *)
Definition Dreadlock_dtor (h : Dreadlock) (between : list Act) (g : Global)
    : option (Status * Global * list Event) :=
  let '(mine, g1) := locked_by_me h g in
  if mine then
    match interfere between g1 with
    | Some g2 => Some (unlock cfg h (dtor_file h) (dtor_unlock_line h) g2)
    | None => None
    end
  else Some (Returned, g1, []).

(** States of a process that is still running. *)
Inductive running : Global -> Prop :=
| running_initial : running initial
| running_step a g g' :
    running g -> perform a g = (g', true) -> running g'.

(** Every state a process goes through, its last one included. *)
Definition reachable (g : Global) : Prop :=
  running g \/ exists a g0, running g0 /\ g = (perform a g0).1.

End Threads.

(** ** Vocabulary of the statements *)

(** The registry names [h] as the holder of its mutex. *)
Definition holds (h : Dreadlock) (g : Global) : Prop :=
  exists n, tracking g !! mtx_key h = Some n
            /\ dreadlock_id (node_info n) = this_dreadlock h.

(** The number of LockRecords the registry has for a mutex identity. *)
Definition records_for (k : N) (g : Global) : nat :=
  length (filter (fun e : N * Node => e.1 = k) (map_to_list (tracking g))).

Definition is_waited (e : Event) : bool :=
  match e with
  | EvWaited _ _ _ _ _ => true
  | _ => false
  end.

Definition is_deadlock (e : Event) : bool :=
  match e with
  | EvDeadlock _ _ _ _ _ => true
  | _ => false
  end.

(** How often a call printed the performance warning. *)
Definition warnings (ev : list Event) : nat :=
  length (filter (fun e => is_waited e = true) ev).

Definition pc_locals (pc : LockPc) : option Locals :=
  match pc with
  | AtLoopTop l | AtTimeCheck l | AtPostLoop l => Some l
  | Finished _ => None
  end.

(** The call has not finished. *)
Definition in_progress (pc : LockPc) : bool :=
  match pc with
  | Finished _ => false
  | _ => true
  end.

(** The call is inside the [for (;;)] of line 174. *)
Definition in_loop (pc : LockPc) : bool :=
  match pc with
  | AtLoopTop _ | AtTimeCheck _ => true
  | _ => false
  end.

(** The state after a successful [mtx.try_lock()] followed by the
    [emplace] of the caller's record. *)
Definition claimed (h : Dreadlock) (l_module : string) (l_line : Z) (g : Global) : Global :=
  new_node (mtx_key h) (my_info h l_module l_line)
    (set_mutexes (<[mtx_key h := ByDreadlock (this_dreadlock h)]> (mutexes g)) g).

(** The state after [mtx.unlock()] and [tracking.erase(mtx_key)]. *)
Definition released (h : Dreadlock) (g : Global) : Global :=
  map_erase (mtx_key h) (mtx_unlock (mtx_key h) g).

(** What one act may do to the registry entry of key [k]: leave it as it
    is, insert the record of its own instance where there was none (with
    the real mutex acquired in the same region), or, being an [unlock] of
    the recorded holder, remove it. *)
Inductive key_change (a : Act) (g g' : Global) (k : N) : Prop :=
| key_kept :
    tracking g' !! k = tracking g !! k ->
    key_change a g g' k
| key_claimed h n :
    actor a = Some h -> mtx_key h = k ->
    tracking g !! k = None -> mutexes g !! k = None ->
    tracking g' !! k = Some n ->
    dreadlock_id (node_info n) = this_dreadlock h ->
    mutexes g' !! k = Some (ByDreadlock (this_dreadlock h)) ->
    key_change a g g' k
| key_released h n :
    is_unlock a = true -> actor a = Some h -> mtx_key h = k ->
    tracking g !! k = Some n ->
    dreadlock_id (node_info n) = this_dreadlock h ->
    tracking g' !! k = None ->
    key_change a g g' k.

(** How many performance warnings a call standing at [pc] can still
    print: the flag [reported_performance] is only consulted inside the
    loop. *)
Definition warnings_left (pc : LockPc) : nat :=
  match pc with
  | AtLoopTop l | AtTimeCheck l => if reported_performance l then 0%nat else 1%nat
  | AtPostLoop _ | Finished _ => 0%nat
  end.

(** An act of a thread other than the one that owns instance [h]:
    instances are not shared between threads and carry distinct ids. *)
Definition foreign (h : Dreadlock) (a : Act) : Prop :=
  forall h', actor a = Some h' -> this_dreadlock h' <> this_dreadlock h.

(** The registry and the real mutexes agree: a record for a key goes
    with the real mutex locked by the thread of the recorded instance,
    and a mutex locked through Dreadlock has the record of that
    instance.  Addresses of live nodes are below [next_addr]. *)
Definition consistent (g : Global) : Prop :=
  forall k,
    (forall n, tracking g !! k = Some n ->
       mutexes g !! k = Some (ByDreadlock (dreadlock_id (node_info n)))
       /\ (node_addr n < next_addr g)%N)
    /\ (forall d, mutexes g !! k = Some (ByDreadlock d) ->
         exists n, tracking g !! k = Some n /\ dreadlock_id (node_info n) = d).

(** ** Sample instances and states *)

(** The header's values with the performance warning switched off. *)
Definition silent_config : Config := {|
  AssertOnDeadlock := true;
  PerformanceTimeout := 0;
  DeadlockTimeout := 5000;
  ShortModuleNames := true;
  Verbose := false
|}.

Definition first_instance : Dreadlock :=
  {| this_dreadlock := 0; id := "mtx"; mtx_key := 7;
     destruct_file := ""; destruct_line := 0 |}.

Definition second_instance : Dreadlock :=
  {| this_dreadlock := 1; id := "mtx"; mtx_key := 7;
     destruct_file := ""; destruct_line := 0 |}.

Definition third_instance : Dreadlock :=
  {| this_dreadlock := 2; id := "mtx"; mtx_key := 7;
     destruct_file := ""; destruct_line := 0 |}.

(** Mutex 7 is locked by code that does not use Dreadlock; the registry
    knows nothing about it. *)
Definition locked_outside : Global :=
  {| next_id := 0; tracking := ∅; next_addr := 0;
     mutexes := {[ 7%N := External ]} |}.

(** [first_instance] holds mutex 7, locked at a.cpp:10. *)
Definition held_by_first : Global :=
  claimed first_instance "a.cpp" 10 initial.

Definition quiet (now : Z) : Tick := {| before := []; clock := now |}.

(** While [second_instance] waits for mutex 7, [first_instance] unlocks
    it and [third_instance] locks it; then the deadlock timeout passes. *)
Definition handover : list Tick :=
  [ quiet 500000; quiet 500000;
    {| before := [ActUnlock first_instance "src/a.cpp" 12;
                  ActLockEntry third_instance "src/c.cpp" 30 1000000];
       clock := 1000000 |};
    quiet 5000000000; quiet 5000000000 ].

(** Section 8 of the specification, the performance-warning scenario:
    [first_instance] holds mutex 7 for 2000 ms while [second_instance]
    waits; clock readings in nanoseconds. *)
Definition held_two_seconds : list Tick :=
  [ quiet 500000; quiet 500000000;            (* 500 ms: keep waiting *)
    quiet 500000000; quiet 1000000000;        (* 1000 ms: the warning *)
    quiet 1000000000; quiet 1500000000;       (* 1500 ms: already reported *)
    {| before := [ActUnlock first_instance "src/a.cpp" 12];
       clock := 2000000000 |};                (* released: acquire *)
    quiet 2000000000 ].

Definition sample_locals : Locals :=
  {| loc_module := "a.cpp"; loc_line := 10; info := None; start := 0;
     reported_performance := false |}.

(** ** Further vocabulary *)

(** The header's values with [AssertOnDeadlock] switched off. *)
Definition lenient_config : Config := {|
  AssertOnDeadlock := false;
  PerformanceTimeout := 1000;
  DeadlockTimeout := 5000;
  ShortModuleNames := true;
  Verbose := false
|}.

(** Nobody else acts; the second clock reading is past the deadlock
    timeout of the header. *)
Definition timed_out : list Tick :=
  [quiet 500000; quiet 5000000000; quiet 5000000000].

(** [second_instance] at the top of its wait loop, having found the
    record of [first_instance] at entry. *)
Definition waiting_second : Locals :=
  {| loc_module := "b.cpp"; loc_line := 20;
     info := Some {| ptr_key := 7; ptr_addr := 0 |}; start := 0;
     reported_performance := false |}.

(** [first_instance] unlocks; then nobody acts. *)
Definition release_then_quiet : list Tick :=
  [ {| before := [ActUnlock first_instance "src/a.cpp" 12]; clock := 2000000 |};
    quiet 2000000 ].

(** [g'] differs from [g] at most in what concerns mutex [k]: every
    other mutex has the same record and the same lock state, and the id
    counter is the same. *)
Definition same_elsewhere (k : N) (g g' : Global) : Prop :=
  next_id g' = next_id g
  /\ forall k', k' <> k ->
       tracking g' !! k' = tracking g !! k'
       /\ mutexes g' !! k' = mutexes g !! k'.

(** The holder keeps mutex 7 beyond the performance timeout of the
    header but not beyond its deadlock timeout; nobody else acts. *)
Definition slow_holder : list Tick :=
  [quiet 500000; quiet 1200000000; quiet 1200500000; quiet 1201000000].

(** No other thread ends the process while the call is under way: at
    every tick the call reaches before it has finished, the acts of the
    other threads, performed in the state the run is in by then, leave
    the process alive.  This follows [run_lock] turn by turn; ticks after
    the call has finished are not looked at. *)
Fixpoint survives (cfg : Config) (h : Dreadlock) (pc : LockPc)
    (sched : list Tick) (g : Global) : bool :=
  match pc, sched with
  | Finished _, _ => true
  | _, [] => true
  | _, t :: sched' =>
      match interfere cfg (before t) g with
      | None => false
      | Some g1 =>
          let '(pc1, g2, _) := lock_step cfg h pc (clock t) g1 in
          survives cfg h pc1 sched' g2
      end
  end.

(** The same for a whole call of [lock(file, line)], entry included. *)
Definition lock_survives (cfg : Config) (h : Dreadlock) (file : string)
    (line : Z) (now : Z) (sched : list Tick) (g : Global) : bool :=
  let '(pc, g1, _) := lock_entry cfg h file line now g in
  survives cfg h pc sched g1.

(** While [second_instance] waits for mutex 7, [first_instance] unlocks
    it and [third_instance] locks it; then an instance for another mutex
    is constructed and that mutex is locked outside the class. *)
Definition busy_neighbours : list Tick :=
  [ quiet 500000;
    {| before := [ActUnlock first_instance "src/a.cpp" 12;
                  ActLockEntry third_instance "src/c.cpp" 30 1000000];
       clock := 1000000 |};
    {| before := [ActCtor 9 "other"; ActExternalLock 9];
       clock := 2000000 |} ].

(** A call of [lock(file, line)] by [b], started at clock reading [now],
    that found the node [n] under its key and is still in progress:
    [info] points to that node. *)
Definition waiting_on (b : Dreadlock) (m : string) (line now : Z) (n : Node)
    (pc : LockPc) : Prop :=
  exists l, pc_locals pc = Some l
            /\ info l = Some {| ptr_key := mtx_key b; ptr_addr := node_addr n |}
            /\ loc_module l = m /\ loc_line l = line /\ start l = now.

(** Instances constructed one after the other (each with [defer], so
    that only the id is taken), for the given mutexes and names. *)
Fixpoint construct_all (specs : list (N * string)) (g : Global)
    : list Dreadlock * Global :=
  match specs with
  | [] => ([], g)
  | (key, name) :: specs' =>
      let '(h, g1) := take_id key name g in
      let '(hs, g2) := construct_all specs' g1 in
      (h :: hs, g2)
  end.

(** Every character of [s] is a path separator. *)
Fixpoint all_separators (s : string) : bool :=
  match s with
  | EmptyString => true
  | String c s' => (is_separator c && all_separators s')%bool
  end.

(** The macro DREADLOCK_UNLOCK_AND_DESTRUCT (Dreadlock.h, lines 178-180):
    [unlock(__FILE__, __LINE__)], then [destruct(__FILE__, __LINE__)] on
    the same instance; [destruct] is reached when [unlock] returns. *)
Definition DREADLOCK_UNLOCK_AND_DESTRUCT (cfg : Config) (h : Dreadlock)
    (file : string) (line : Z) (g : Global)
    : Dreadlock * (Status * Global * list Event) :=
  let r := unlock cfg h file line g in
  match r.1.1 with
  | Returned => (Dreadlock_destruct h file line, r)
  | _ => (h, r)
  end.

(** * Proofs *)

(** ** The token iterator *)

Lemma skip_separators_length s :
  (String.length (skip_separators s) <= String.length s)%nat.
Proof.
  induction s as [|c s IH]; simpl; [lia|].
  destruct (is_separator c); simpl; lia.
Qed.

(** A match is not empty: the suffix is shorter than the text searched. *)
Lemma regex_search_shorter s p r :
  regex_search s = Some (p, r) -> (String.length r < String.length s)%nat.
Proof.
  revert p r. induction s as [|c s IH]; intros p r; simpl; [discriminate|].
  destruct (is_separator c).
  - intros [= <- <-]. pose proof (skip_separators_length s). lia.
  - destruct (regex_search s) as [[p' r']|] eqn:E; [|discriminate].
    intros [= <- <-]. specialize (IH _ _ eq_refl). lia.
Qed.

Lemma regex_search_none s :
  regex_search s = None <-> has_separator s = false.
Proof.
  induction s as [|c s IH]; simpl; [tauto|].
  destruct (is_separator c); simpl.
  - split; discriminate.
  - destruct (regex_search s) as [[p r]|]; split; intros H; try discriminate; try tauto.
    apply IH in H. discriminate.
Qed.

(** The fuel of [later_tokens] is never used up when it starts above the
    length of the suffix. *)
Lemma later_tokens_fuel n m s :
  (String.length s < n)%nat -> (String.length s < m)%nat ->
  later_tokens n s = later_tokens m s.
Proof.
  revert m s. induction n as [|n IH]; intros m s Hn Hm; [lia|].
  destruct m as [|m]; [lia|]. simpl.
  destruct (regex_search s) as [[p r]|] eqn:E; [|reflexivity].
  apply regex_search_shorter in E. f_equal. apply IH; lia.
Qed.

Lemma tokens_not_empty path : tokens path <> [].
Proof. unfold tokens. destruct (regex_search path) as [[p r]|]; discriminate. Qed.

Lemma get_module_name_defined path : exists m, get_module_name path = Some m.
Proof.
  unfold get_module_name, vector_back.
  destruct (tokens path) as [|t ts] eqn:E; [by apply tokens_not_empty in E|].
  destruct (last (t :: ts)) eqn:L; [eauto|].
  apply last_None in L. discriminate.
Qed.

Lemma module_of_defined cfg file : exists m, module_of cfg file = Some m.
Proof.
  unfold module_of. destruct (ShortModuleNames cfg); [|eauto].
  apply get_module_name_defined.
Qed.

Lemma length_append s1 s2 :
  String.length (s1 +:+ s2) = (String.length s1 + String.length s2)%nat.
Proof. induction s1 as [|c s1 IH]; simpl; [reflexivity|]. by rewrite IH. Qed.

Lemma get_module_name_plain path :
  has_separator path = false -> get_module_name path = Some path.
Proof.
  intros H. unfold get_module_name, tokens.
  by apply regex_search_none in H as ->.
Qed.

Section LastSegment.

Variables (c : ascii) (name : string).
Hypothesis c_separator : is_separator c = true.
Hypothesis name_plain : has_separator name = false.
Hypothesis name_not_empty : name <> "".

Lemma skip_separators_name : skip_separators name = name.
Proof.
  destruct name as [|a s]; [reflexivity|]. simpl in *.
  destruct (is_separator a); [discriminate|reflexivity].
Qed.

Lemma skip_separators_before r :
  skip_separators (r +:+ String c name) = name
  \/ exists r1, skip_separators (r +:+ String c name) = r1 +:+ String c name
                /\ (String.length r1 <= String.length r)%nat.
Proof.
  induction r as [|b r IH]; simpl.
  - rewrite c_separator. left. apply skip_separators_name.
  - destruct (is_separator b).
    + destruct IH as [IH|(r1 & IH & Hlen)]; [by left|].
      right. exists r1. split; [done|lia].
    + right. exists (String b r). split; [done|simpl; lia].
Qed.

Lemma regex_search_before r :
  exists p r', regex_search (r +:+ String c name) = Some (p, r')
    /\ (r' = name
        \/ exists r1, r' = r1 +:+ String c name
                      /\ (String.length r1 < String.length r)%nat).
Proof.
  induction r as [|b r IH]; simpl.
  - rewrite c_separator. eexists _, _. split; [reflexivity|].
    left. apply skip_separators_name.
  - destruct (is_separator b).
    + eexists _, _. split; [reflexivity|].
      destruct (skip_separators_before r) as [H|(r1 & H & Hlen)]; [by left|].
      right. exists r1. split; [done|lia].
    + destruct IH as (p & r' & -> & IH). eexists _, _. split; [reflexivity|].
      destruct IH as [IH|(r1 & IH & Hlen)]; [by left|].
      right. exists r1. split; [done|lia].
Qed.

Lemma later_tokens_name fuel : later_tokens (S fuel) name = [name].
Proof.
  simpl. apply regex_search_none in name_plain as ->.
  destruct name; [done|reflexivity].
Qed.

Lemma later_tokens_last n : forall r fuel,
  (String.length r < n)%nat ->
  (String.length (r +:+ String c name) < fuel)%nat ->
  last (later_tokens fuel (r +:+ String c name)) = Some name.
Proof.
  induction n as [|n IH]; intros r fuel Hr Hfuel; [lia|].
  destruct fuel as [|fuel]; [lia|]. simpl.
  destruct (regex_search_before r) as (p & r' & E & Hr').
  rewrite E. apply regex_search_shorter in E. rewrite last_cons.
  destruct Hr' as [->|(r1 & -> & Hlen)].
  - destruct fuel as [|fuel]; [rewrite length_append in Hfuel; simpl in Hfuel; lia|].
    by rewrite later_tokens_name.
  - rewrite IH; [done|lia|lia].
Qed.

(** The name after the last separator is the module name. *)
Lemma get_module_name_last_segment dir :
  get_module_name (dir +:+ String c name) = Some name.
Proof.
  unfold get_module_name, vector_back, tokens.
  destruct (regex_search_before dir) as (p & r' & E & Hr').
  rewrite E. rewrite last_cons.
  destruct Hr' as [->|(r1 & -> & Hlen)].
  - by rewrite later_tokens_name.
  - by rewrite (later_tokens_last (S (String.length r1))); [|lia|lia].
Qed.

End LastSegment.

(** Separators at the end of the path. *)

Lemma skip_separators_all seps :
  all_separators seps = true -> skip_separators seps = "".
Proof.
  induction seps as [|c s IH]; simpl; [done|].
  destruct (is_separator c); [exact IH|discriminate].
Qed.

Lemma regex_search_separators seps :
  all_separators seps = true -> seps <> "" ->
  regex_search seps = Some ("", "").
Proof.
  destruct seps as [|c s]; [done|]. simpl.
  destruct (is_separator c); [|discriminate].
  intros Hs _. by rewrite (skip_separators_all s Hs).
Qed.

Lemma append_empty s : s +:+ "" = s.
Proof.
  induction s as [|a s IH]; [done|].
  change (String a (s +:+ "") = String a s). by rewrite IH.
Qed.

Section TrailingSeparators.

Variables (name seps : string).
Hypothesis name_plain : has_separator name = false.
Hypothesis name_not_empty : name <> "".
Hypothesis seps_separators : all_separators seps = true.

Lemma skip_separators_tail : skip_separators (name +:+ seps) = name +:+ seps.
Proof.
  destruct name as [|a s]; [done|]. simpl in *.
  destruct (is_separator a); [discriminate|reflexivity].
Qed.

Lemma regex_search_tail :
  regex_search (name +:+ seps)
  = match seps with
    | EmptyString => None
    | _ => Some (name, "")
    end.
Proof.
  clear name_not_empty. revert name_plain.
  induction name as [|a s IH]; simpl; intros Hp.
  - destruct seps as [|c s'] eqn:E; [done|].
    rewrite <- E. apply regex_search_separators; [by rewrite E|by rewrite E].
  - destruct (is_separator a); [discriminate|]. simpl in Hp.
    rewrite (IH Hp). by destruct seps.
Qed.

Lemma tail_not_empty : name +:+ seps <> "".
Proof. destruct name; [done|discriminate]. Qed.

Lemma later_tokens_tail fuel :
  later_tokens (S (S fuel)) (name +:+ seps) = [name].
Proof.
  cbn [later_tokens]. rewrite regex_search_tail.
  destruct seps as [|c s] eqn:E.
  - rewrite append_empty. destruct name; [done|reflexivity].
  - reflexivity.
Qed.

Lemma tokens_tail : tokens (name +:+ seps) = [name].
Proof.
  unfold tokens. rewrite regex_search_tail.
  destruct seps as [|c s] eqn:E; [|reflexivity].
  by rewrite append_empty.
Qed.

Variable c : ascii.
Hypothesis c_separator : is_separator c = true.

Lemma skip_separators_before_tail r :
  skip_separators (r +:+ String c (name +:+ seps)) = name +:+ seps
  \/ exists r1, skip_separators (r +:+ String c (name +:+ seps))
                = r1 +:+ String c (name +:+ seps)
                /\ (String.length r1 <= String.length r)%nat.
Proof.
  induction r as [|b r IH]; simpl.
  - rewrite c_separator. left. apply skip_separators_tail.
  - destruct (is_separator b).
    + destruct IH as [IH|(r1 & IH & Hlen)]; [by left|].
      right. exists r1. split; [done|lia].
    + right. exists (String b r). split; [done|simpl; lia].
Qed.

Lemma regex_search_before_tail r :
  exists p r', regex_search (r +:+ String c (name +:+ seps)) = Some (p, r')
    /\ (r' = name +:+ seps
        \/ exists r1, r' = r1 +:+ String c (name +:+ seps)
                      /\ (String.length r1 < String.length r)%nat).
Proof.
  induction r as [|b r IH]; simpl.
  - rewrite c_separator. eexists _, _. split; [reflexivity|].
    left. apply skip_separators_tail.
  - destruct (is_separator b).
    + eexists _, _. split; [reflexivity|].
      destruct (skip_separators_before_tail r) as [H|(r1 & H & Hlen)]; [by left|].
      right. exists r1. split; [done|lia].
    + destruct IH as (p & r' & -> & IH). eexists _, _. split; [reflexivity|].
      destruct IH as [IH|(r1 & IH & Hlen)]; [by left|].
      right. exists r1. split; [done|lia].
Qed.

Lemma later_tokens_last_tail n : forall r fuel,
  (String.length r < n)%nat ->
  (String.length (r +:+ String c (name +:+ seps)) < fuel)%nat ->
  last (later_tokens fuel (r +:+ String c (name +:+ seps))) = Some name.
Proof.
  pose proof tail_not_empty as Hne.
  induction n as [|n IH]; intros r fuel Hr Hfuel; [lia|].
  destruct fuel as [|fuel]; [lia|]. cbn [later_tokens].
  destruct (regex_search_before_tail r) as (p & r' & E & Hr').
  rewrite E. apply regex_search_shorter in E. rewrite last_cons.
  destruct Hr' as [->|(r1 & -> & Hlen)].
  - rewrite length_append in Hfuel. simpl in Hfuel.
    destruct (name +:+ seps) as [|a s] eqn:Et; [done|]. simpl in Hfuel.
    destruct fuel as [|[|fuel]]; [lia|lia|].
    rewrite <- Et. by rewrite later_tokens_tail.
  - rewrite IH; [done|lia|lia].
Qed.

Lemma get_module_name_before_tail dir :
  get_module_name (dir +:+ String c (name +:+ seps)) = Some name.
Proof.
  pose proof tail_not_empty as Hne.
  unfold get_module_name, vector_back, tokens.
  destruct (regex_search_before_tail dir) as (p & r' & E & Hr').
  rewrite E. rewrite last_cons.
  destruct Hr' as [->|(r1 & -> & Hlen)].
  - destruct (name +:+ seps) as [|a s] eqn:Et; [done|]. simpl String.length.
    rewrite <- Et. by rewrite later_tokens_tail.
  - by rewrite (later_tokens_last_tail (S (String.length r1))); [|lia|lia].
Qed.

End TrailingSeparators.

(** A path made of separators only, the empty path included. *)
Lemma get_module_name_separators seps :
  all_separators seps = true -> get_module_name seps = Some "".
Proof.
  intros Hs. destruct seps as [|c s] eqn:E; [reflexivity|]. rewrite <- E.
  unfold get_module_name, tokens.
  by rewrite (regex_search_separators seps); [|rewrite E|rewrite E].
Qed.

(** The three shapes of a path: separators only; a name and separators
    after it; or a separator, a name and separators after it, behind
    whatever comes first. *)
Lemma path_shape path :
  all_separators path = true
  \/ (exists name seps,
        path = name +:+ seps /\ has_separator name = false /\ name <> ""
        /\ all_separators seps = true)
  \/ (exists dir c name seps,
        path = dir +:+ String c (name +:+ seps) /\ is_separator c = true
        /\ has_separator name = false /\ name <> ""
        /\ all_separators seps = true).
Proof.
  induction path as [|a s IH]; [by left|].
  destruct IH as [Hs|[(name & seps & -> & Hn & Hne & Hs)
                     |(dir & c & name & seps & -> & Hc & Hn & Hne & Hs)]].
  - destruct (is_separator a) eqn:Ha.
    + left. simpl. by rewrite Ha.
    + right. left. exists (String a ""), s. simpl. by rewrite Ha.
  - destruct (is_separator a) eqn:Ha.
    + right. right. by exists "", a, name, seps.
    + right. left. exists (String a name), seps. simpl. by rewrite Ha.
  - right. right. by exists (String a dir), c, name, seps.
Qed.

(** ** The regions, case by case *)

Lemma holds_lookup h g n :
  tracking g !! mtx_key h = Some n ->
  holds h g <-> dreadlock_id (node_info n) = this_dreadlock h.
Proof.
  intros E. unfold holds. split.
  - intros (n' & E' & Hid). congruence.
  - eauto.
Qed.

Lemma not_holds_absent h g : tracking g !! mtx_key h = None -> ~ holds h g.
Proof. intros E (n & E' & _). congruence. Qed.

(** [operator[]] is only ever applied to a key that is present, so the
    ownership test never inserts. *)
Lemma locked_by_me_holds h g : holds h g -> locked_by_me h g = (true, g).
Proof.
  intros (n & E & Hid). unfold locked_by_me, map_contains, map_subscript.
  rewrite E. simpl. rewrite Hid. by rewrite N.eqb_refl.
Qed.

Lemma locked_by_me_not h g : ~ holds h g -> locked_by_me h g = (false, g).
Proof.
  intros Hn. unfold locked_by_me, map_contains, map_subscript.
  destruct (tracking g !! mtx_key h) as [n|] eqn:E; [|done]. simpl.
  destruct (N.eqb_spec (dreadlock_id (node_info n)) (this_dreadlock h)) as [Hid|]; [|done].
  destruct Hn. by exists n.
Qed.

Lemma locked_by_me_state h g : (locked_by_me h g).2 = g.
Proof.
  unfold locked_by_me, map_contains, map_subscript.
  by destruct (tracking g !! mtx_key h).
Qed.

Lemma try_lock_free did k g :
  mutexes g !! k = None ->
  try_lock did k g = Some (set_mutexes (<[k := ByDreadlock did]> (mutexes g)) g).
Proof. intros E. unfold try_lock. by rewrite E. Qed.

Lemma try_lock_taken did k g o : mutexes g !! k = Some o -> try_lock did k g = None.
Proof. intros E. unfold try_lock. by rewrite E. Qed.

Section Regions.

Variable cfg : Config.
Variable h : Dreadlock.

Lemma lock_entry_free file line now g m :
  module_of cfg file = Some m ->
  tracking g !! mtx_key h = None -> mutexes g !! mtx_key h = None ->
  lock_entry cfg h file line now g
  = (Finished Returned, claimed h m line g, banner cfg h file line).
Proof.
  intros Hm Ht Hx. unfold lock_entry, map_contains, map_emplace, claimed.
  rewrite Hm, Ht, (try_lock_free _ _ _ Hx). simpl. by rewrite Ht.
Qed.

Lemma lock_entry_outside file line now g m o :
  module_of cfg file = Some m ->
  tracking g !! mtx_key h = None -> mutexes g !! mtx_key h = Some o ->
  lock_entry cfg h file line now g
  = (AtLoopTop {| loc_module := m; loc_line := line; info := None;
                  start := now; reported_performance := false |},
     g, banner cfg h file line).
Proof.
  intros Hm Ht Hx. unfold lock_entry, map_contains.
  by rewrite Hm, Ht, (try_lock_taken _ _ _ _ Hx).
Qed.

Lemma lock_entry_again file line now g m n :
  module_of cfg file = Some m ->
  tracking g !! mtx_key h = Some n ->
  dreadlock_id (node_info n) = this_dreadlock h ->
  lock_entry cfg h file line now g
  = (Finished AssertionFailed, g,
     (banner cfg h file line
      ++ [EvIllegalLock (id h) m line (lock_file (node_info n)) (lock_line (node_info n))])%list).
Proof.
  intros Hm Ht Hid. unfold lock_entry, map_contains, map_subscript.
  rewrite Hm, Ht. simpl. by rewrite Hid, N.eqb_refl.
Qed.

Lemma lock_entry_contended file line now g m n :
  module_of cfg file = Some m ->
  tracking g !! mtx_key h = Some n ->
  dreadlock_id (node_info n) <> this_dreadlock h ->
  lock_entry cfg h file line now g
  = (AtLoopTop {| loc_module := m; loc_line := line;
                  info := Some {| ptr_key := mtx_key h; ptr_addr := node_addr n |};
                  start := now; reported_performance := false |},
     g,
     (banner cfg h file line
      ++ (if Verbose cfg
          then [EvAttempting (id h) m line (lock_file (node_info n)) (lock_line (node_info n))]
          else []))%list).
Proof.
  intros Hm Ht Hid. unfold lock_entry, map_contains, map_subscript.
  rewrite Hm, Ht. simpl. apply N.eqb_neq in Hid. by rewrite Hid.
Qed.

Lemma loop_top_present l g n :
  tracking g !! mtx_key h = Some n -> loop_top h l g = (AtTimeCheck l, g, []).
Proof. intros Ht. unfold loop_top, map_contains. by rewrite Ht. Qed.

Lemma loop_top_free l g :
  tracking g !! mtx_key h = None -> mutexes g !! mtx_key h = None ->
  loop_top h l g = (AtPostLoop l, claimed h (loc_module l) (loc_line l) g, []).
Proof.
  intros Ht Hx. unfold loop_top, map_contains, map_emplace, claimed.
  rewrite Ht, (try_lock_free _ _ _ Hx). simpl. by rewrite Ht.
Qed.

Lemma loop_top_outside l g o :
  tracking g !! mtx_key h = None -> mutexes g !! mtx_key h = Some o ->
  loop_top h l g = (AtPostLoop l, g, []).
Proof.
  intros Ht Hx. unfold loop_top, map_contains.
  by rewrite Ht, (try_lock_taken _ _ _ _ Hx).
Qed.

Lemma time_check_state l now g : (time_check cfg h l now g).1.2 = g.
Proof.
  unfold time_check. repeat case_match; reflexivity.
Qed.

Lemma lock_post_state l g : (lock_post cfg h l g).1.2 = g.
Proof.
  unfold lock_post. pose proof (locked_by_me_state h g) as H.
  destruct (locked_by_me h g) as [mine g1]. simpl in H. subst g1.
  repeat case_match; reflexivity.
Qed.

Lemma unlock_mine file line g m :
  module_of cfg file = Some m -> holds h g ->
  exists ev, unlock cfg h file line g = (Returned, released h g, ev).
Proof.
  intros Hm Hh. unfold unlock. rewrite Hm, (locked_by_me_holds _ _ Hh).
  destruct Hh as (n & Ht & _). unfold map_subscript. rewrite Ht.
  destruct (Verbose cfg); eauto.
Qed.

Lemma unlock_unowned file line g m :
  module_of cfg file = Some m -> tracking g !! mtx_key h = None ->
  unlock cfg h file line g = (AssertionFailed, g, [EvUnowned (id h) m line]).
Proof.
  intros Hm Ht. unfold unlock.
  rewrite Hm, (locked_by_me_not _ _ (not_holds_absent _ _ Ht)).
  unfold map_contains. by rewrite Ht.
Qed.

Lemma unlock_not_owner file line g m n :
  module_of cfg file = Some m ->
  tracking g !! mtx_key h = Some n ->
  dreadlock_id (node_info n) <> this_dreadlock h ->
  unlock cfg h file line g
  = (AssertionFailed, g,
     [EvIllegalUnlock (id h) (this_dreadlock h) m line
        (dreadlock_id (node_info n)) (lock_file (node_info n)) (lock_line (node_info n))]).
Proof.
  intros Hm Ht Hid. unfold unlock.
  rewrite Hm, locked_by_me_not by (by rewrite (holds_lookup _ _ _ Ht)).
  unfold map_contains, map_subscript. by rewrite Ht.
Qed.

End Regions.

(** ** The registry under every act *)

Lemma key_change_same a g g' k :
  tracking g' = tracking g -> key_change a g g' k.
Proof. intros E. apply key_kept. by rewrite E. Qed.

Lemma key_change_claimed a h m line g k :
  actor a = Some h ->
  tracking g !! mtx_key h = None -> mutexes g !! mtx_key h = None ->
  key_change a g (claimed h m line g) k.
Proof.
  intros Ha Ht Hx. destruct (decide (k = mtx_key h)) as [->|Hk].
  - eapply key_claimed; eauto; simpl.
    + apply lookup_insert_eq.
    + reflexivity.
    + apply lookup_insert_eq.
  - apply key_kept. simpl. by rewrite lookup_insert_ne.
Qed.

Lemma key_change_released a h g k :
  is_unlock a = true -> actor a = Some h -> holds h g ->
  key_change a g (released h g) k.
Proof.
  intros Hu Ha (n & Ht & Hid). destruct (decide (k = mtx_key h)) as [->|Hk].
  - eapply key_released; eauto. simpl. apply lookup_delete_eq.
  - apply key_kept. simpl. by rewrite lookup_delete_ne.
Qed.

Lemma key_change_loop_top a h l g k :
  actor a = Some h -> key_change a g (loop_top h l g).1.2 k.
Proof.
  intros Ha.
  destruct (tracking g !! mtx_key h) as [n|] eqn:Ht.
  - rewrite (loop_top_present _ _ _ _ Ht). by apply key_change_same.
  - destruct (mutexes g !! mtx_key h) as [o|] eqn:Hx.
    + rewrite (loop_top_outside _ _ _ _ Ht Hx). by apply key_change_same.
    + rewrite (loop_top_free _ _ _ Ht Hx). by apply key_change_claimed.
Qed.

Lemma key_change_lock_entry cfg a h file line now g k :
  actor a = Some h -> key_change a g (lock_entry cfg h file line now g).1.2 k.
Proof.
  intros Ha. destruct (module_of_defined cfg file) as [m Hm].
  destruct (tracking g !! mtx_key h) as [n|] eqn:Ht.
  - destruct (decide (dreadlock_id (node_info n) = this_dreadlock h)) as [Hid|Hid].
    + rewrite (lock_entry_again _ _ _ _ _ _ _ _ Hm Ht Hid). by apply key_change_same.
    + rewrite (lock_entry_contended _ _ _ _ _ _ _ _ Hm Ht Hid). by apply key_change_same.
  - destruct (mutexes g !! mtx_key h) as [o|] eqn:Hx.
    + rewrite (lock_entry_outside _ _ _ _ _ _ _ _ Hm Ht Hx). by apply key_change_same.
    + rewrite (lock_entry_free _ _ _ _ _ _ _ Hm Ht Hx). by apply key_change_claimed.
Qed.

Lemma key_change_lock_step cfg a h pc now g k :
  actor a = Some h -> key_change a g (lock_step cfg h pc now g).1.2 k.
Proof.
  intros Ha. destruct pc as [l|l|l|s]; simpl.
  - by apply key_change_loop_top.
  - rewrite time_check_state. by apply key_change_same.
  - rewrite lock_post_state. by apply key_change_same.
  - by apply key_change_same.
Qed.

Lemma unlock_state cfg h file line g :
  (unlock cfg h file line g).1.2 = g /\ ~ holds h g
  \/ (unlock cfg h file line g).1.2 = released h g /\ holds h g.
Proof.
  destruct (module_of_defined cfg file) as [m Hm].
  destruct (tracking g !! mtx_key h) as [n|] eqn:Ht.
  - destruct (decide (dreadlock_id (node_info n) = this_dreadlock h)) as [Hid|Hid].
    + assert (holds h g) as Hh by (by exists n).
      destruct (unlock_mine cfg h file line g m Hm Hh) as [ev ->]. by right.
    + rewrite (unlock_not_owner _ _ _ _ _ _ _ Hm Ht Hid). left. split; [done|].
      by rewrite (holds_lookup _ _ _ Ht).
  - rewrite (unlock_unowned _ _ _ _ _ _ Hm Ht). left. split; [done|].
    by apply not_holds_absent.
Qed.

Lemma key_change_perform cfg a g k : key_change a g (perform cfg a g).1 k.
Proof.
  destruct a as [key name|h file line now|h pc now|h file line|h|k'|k']; simpl.
  - by apply key_change_same.
  - pose proof (key_change_lock_entry cfg (ActLockEntry h file line now) h file line now g k eq_refl) as H.
    by destruct (lock_entry cfg h file line now g) as [[pc g1] ev].
  - pose proof (key_change_lock_step cfg (ActLockStep h pc now) h pc now g k eq_refl) as H.
    by destruct (lock_step cfg h pc now g) as [[pc1 g1] ev].
  - destruct (unlock_state cfg h file line g) as [[E Hh]|[E Hh]];
      destruct (unlock cfg h file line g) as [[s g1] ev]; simpl in *; subst g1.
    + by apply key_change_same.
    + by apply key_change_released.
  - rewrite locked_by_me_state. by apply key_change_same.
  - destruct (mutexes g !! k'); by apply key_change_same.
  - destruct (mutexes g !! k') as [[d|]|]; by apply key_change_same.
Qed.

(** [std::map] keeps one node per key. *)
Lemma filter_key_absent (l : list (N * Node)) k :
  k ∉ l.*1 -> filter (fun e : N * Node => e.1 = k) l = [].
Proof.
  induction l as [|[k' n] l IH]; [done|]. simpl. intros Hk.
  rewrite filter_cons. simpl. destruct (decide (k' = k)) as [->|_].
  - destruct Hk. left.
  - apply IH. intros Hin. apply Hk. by right.
Qed.

Lemma filter_key_once (l : list (N * Node)) k :
  NoDup l.*1 -> (length (filter (fun e : N * Node => e.1 = k) l) <= 1)%nat.
Proof.
  induction l as [|[k' n] l IH]; [simpl; lia|]. simpl. intros Hnd.
  apply NoDup_cons in Hnd as [Hk' Hnd]. rewrite filter_cons. simpl.
  destruct (decide (k' = k)) as [->|_]; [|by apply IH].
  rewrite (filter_key_absent _ _ Hk'). simpl. lia.
Qed.

Lemma records_for_once k g : (records_for k g <= 1)%nat.
Proof. apply filter_key_once, NoDup_fst_map_to_list. Qed.

Lemma records_for_lookup k g :
  records_for k g = match tracking g !! k with Some _ => 1%nat | None => 0%nat end.
Proof.
  unfold records_for.
  destruct (tracking g !! k) as [n|] eqn:Ht.
  - apply elem_of_map_to_list in Ht.
    apply list_elem_of_split in Ht as (l1 & l2 & Hl).
    pose proof (NoDup_fst_map_to_list (tracking g)) as Hnd.
    rewrite Hl in Hnd |- *. rewrite fmap_app, fmap_cons in Hnd. simpl in Hnd.
    apply NoDup_app in Hnd as (_ & H1 & Hnd). apply NoDup_cons in Hnd as [H2 _].
    rewrite filter_app, filter_cons. simpl.
    rewrite decide_True by done.
    rewrite (filter_key_absent l2 k H2).
    rewrite (filter_key_absent l1 k); [done|].
    intros Hin. apply (H1 _ Hin). left.
  - rewrite filter_key_absent; [done|]. intros Hin.
    apply list_elem_of_fmap in Hin as ([k' n] & -> & Hin). simpl in Ht.
    apply elem_of_map_to_list in Hin. congruence.
Qed.

(** * The claims *)

(** C1.  In every state a process goes through, the registry has at most
    one LockRecord per mutex identity, and no act changes an entry except
    by inserting the record of its own instance where there was none
    (together with a successful [try_lock] of the real mutex) or, as an
    [unlock] by the recorded holder, by removing it.  In particular
    [operator[]] never inserts and [emplace] never meets an existing key. *)
Theorem registry_one_record_per_mutex cfg :
  (forall g, reachable cfg g -> forall k, (records_for k g <= 1)%nat)
  /\ (forall a g k, key_change a g (perform cfg a g).1 k).
Proof.
  split.
  - intros g _ k. apply records_for_once.
  - intros a g k. apply key_change_perform.
Qed.

Lemma holds_claimed h m line g : holds h (claimed h m line g).
Proof.
  eexists. split; [apply lookup_insert_eq|reflexivity].
Qed.

(** C2, as the code has it.  A region of the wait loop leaves the loop in
    exactly three ways: the record is absent and [try_lock] succeeds (the
    caller's record is inserted); the record is absent and [try_lock]
    fails (nothing changes); or, a record having been found, the time
    waited has reached [DeadlockTimeout].  Finding the record absent
    always ends the wait; the time is only looked at after a pass that
    found a record. *)
Theorem wait_loop_exits cfg h pc now g l :
  in_loop pc = true ->
  (forall g' ev,
     lock_step cfg h pc now g = (AtPostLoop l, g', ev) ->
     ev = []
     /\ (pc = AtLoopTop l /\ tracking g !! mtx_key h = None
         /\ mutexes g !! mtx_key h = None
         /\ g' = claimed h (loc_module l) (loc_line l) g /\ holds h g'
         \/ pc = AtLoopTop l /\ tracking g !! mtx_key h = None
            /\ is_Some (mutexes g !! mtx_key h) /\ g' = g
         \/ pc = AtTimeCheck l
            /\ DeadlockTimeout cfg <= elapsed_ms (start l) now /\ g' = g))
  /\ (pc = AtLoopTop l -> tracking g !! mtx_key h = None ->
      exists g', lock_step cfg h pc now g = (AtPostLoop l, g', []))
  /\ (forall g' ev,
        lock_step cfg h pc now g = (AtTimeCheck l, g', ev) ->
        pc = AtLoopTop l /\ is_Some (tracking g !! mtx_key h) /\ g' = g).
Proof.
  intros Hloop. split; [|split].
  - intros g' ev Hstep. destruct pc as [l0|l0|l0|s]; try discriminate; simpl in Hstep.
    + destruct (tracking g !! mtx_key h) as [n|] eqn:Ht.
      { rewrite (loop_top_present _ _ _ _ Ht) in Hstep. discriminate. }
      destruct (mutexes g !! mtx_key h) as [o|] eqn:Hx.
      * rewrite (loop_top_outside _ _ _ _ Ht Hx) in Hstep.
        injection Hstep as -> -> ->. split; [done|]. right. left. eauto.
      * rewrite (loop_top_free _ _ _ Ht Hx) in Hstep.
        injection Hstep as -> <- <-. split; [done|]. left.
        repeat split; try done. apply holds_claimed.
    + unfold time_check in Hstep.
      destruct (Z.leb_spec (DeadlockTimeout cfg) (elapsed_ms (start l0) now)) as [Hd|Hd].
      * injection Hstep as -> -> ->. split; [done|]. right. right. done.
      * repeat case_match; discriminate.
  - intros -> Ht. simpl.
    destruct (mutexes g !! mtx_key h) as [o|] eqn:Hx.
    + rewrite (loop_top_outside _ _ _ _ Ht Hx). eauto.
    + rewrite (loop_top_free _ _ _ Ht Hx). eauto.
  - intros g' ev Hstep. destruct pc as [l0|l0|l0|s]; try discriminate; simpl in Hstep.
    + destruct (tracking g !! mtx_key h) as [n|] eqn:Ht.
      * rewrite (loop_top_present _ _ _ _ Ht) in Hstep.
        injection Hstep as -> -> _. eauto.
      * destruct (mutexes g !! mtx_key h) as [o|] eqn:Hx.
        -- rewrite (loop_top_outside _ _ _ _ Ht Hx) in Hstep. discriminate.
        -- rewrite (loop_top_free _ _ _ Ht Hx) in Hstep. discriminate.
    + unfold time_check in Hstep. repeat case_match; discriminate.
Qed.

Lemma wait_loop_exits_witness :
  in_loop (AtLoopTop sample_locals) = true
  /\ exists g', lock_step header_config first_instance (AtLoopTop sample_locals)
                  500000 locked_outside
                = (AtPostLoop sample_locals, g', []).
Proof.
  split; [reflexivity|].
  apply (proj1 (proj2 (wait_loop_exits header_config first_instance
                         (AtLoopTop sample_locals) 500000 locked_outside
                         sample_locals eq_refl))); reflexivity.
Defined.

(** C2, as the claim has it, fails: with mutex 7 locked outside Dreadlock
    and no record in the registry, [lock] enters the loop and the first
    pass leaves it at once, with nothing acquired and long before the
    deadlock timeout. *)
Lemma wait_loop_left_without_acquire :
  running header_config locked_outside
  /\ lock header_config first_instance "src/a.cpp" 10 0 [] locked_outside
     = (AtLoopTop sample_locals, locked_outside, [])
  /\ lock_step header_config first_instance (AtLoopTop sample_locals)
       500000 locked_outside
     = (AtPostLoop sample_locals, locked_outside, [])
  /\ ~ holds first_instance locked_outside
  /\ elapsed_ms (start sample_locals) 500000 < DeadlockTimeout header_config.
Proof.
  split; [|split; [|split; [|split]]].
  - apply (running_step header_config (ActExternalLock 7) initial);
      [apply running_initial|reflexivity].
  - reflexivity.
  - reflexivity.
  - apply not_holds_absent. reflexivity.
  - reflexivity.
Qed.

(** C4.  When the registry already names the caller as the holder,
    [lock] prints the illegal-lock message and fails its [assert]; the
    state is left as it was (no second record, the real mutex untouched)
    and no region of the wait loop runs, whatever the schedule. *)
Theorem relock_is_fatal cfg h file line now sched g :
  holds h g ->
  exists m n,
    module_of cfg file = Some m
    /\ tracking g !! mtx_key h = Some n
    /\ lock cfg h file line now sched g
       = (Finished AssertionFailed, g,
          (banner cfg h file line
           ++ [EvIllegalLock (id h) m line
                 (lock_file (node_info n)) (lock_line (node_info n))])%list).
Proof.
  intros (n & Ht & Hid). destruct (module_of_defined cfg file) as [m Hm].
  exists m, n. split; [done|]. split; [done|].
  unfold lock. rewrite (lock_entry_again _ _ _ _ _ _ _ _ Hm Ht Hid).
  destruct sched; simpl; by rewrite app_nil_r.
Qed.

Lemma relock_is_fatal_witness :
  holds first_instance held_by_first
  /\ exists m n,
       module_of header_config "src/b.cpp" = Some m
       /\ tracking held_by_first !! mtx_key first_instance = Some n
       /\ lock header_config first_instance "src/b.cpp" 20 0 [quiet 500000] held_by_first
          = (Finished AssertionFailed, held_by_first,
             (banner header_config first_instance "src/b.cpp" 20
              ++ [EvIllegalLock (id first_instance) m 20
                    (lock_file (node_info n)) (lock_line (node_info n))])%list).
Proof.
  assert (holds first_instance held_by_first) as H by apply holds_claimed.
  split; [exact H|].
  apply (relock_is_fatal header_config first_instance "src/b.cpp" 20 0
           [quiet 500000] held_by_first H).
Defined.

(** C5.  [unlock] on a mutex that has no record, or whose record names
    another instance, prints the matching message and fails its
    [assert]; the registry and the real mutexes are as before. *)
Theorem unlock_without_ownership_is_fatal cfg h file line g :
  ~ holds h g ->
  exists m,
    module_of cfg file = Some m
    /\ (tracking g !! mtx_key h = None
        /\ unlock cfg h file line g
           = (AssertionFailed, g, [EvUnowned (id h) m line])
        \/ exists n,
             tracking g !! mtx_key h = Some n
             /\ dreadlock_id (node_info n) <> this_dreadlock h
             /\ unlock cfg h file line g
                = (AssertionFailed, g,
                   [EvIllegalUnlock (id h) (this_dreadlock h) m line
                      (dreadlock_id (node_info n))
                      (lock_file (node_info n)) (lock_line (node_info n))])).
Proof.
  intros Hn. destruct (module_of_defined cfg file) as [m Hm]. exists m.
  split; [done|].
  destruct (tracking g !! mtx_key h) as [n|] eqn:Ht.
  - right. exists n. rewrite (holds_lookup _ _ _ Ht) in Hn.
    split; [done|]. split; [done|]. by apply unlock_not_owner.
  - left. split; [done|]. by apply unlock_unowned.
Qed.

Lemma unlock_without_ownership_is_fatal_witness :
  ~ holds second_instance held_by_first
  /\ exists m,
       module_of header_config "" = Some m
       /\ (tracking held_by_first !! mtx_key second_instance = None
           /\ unlock header_config second_instance "" (-1) held_by_first
              = (AssertionFailed, held_by_first, [EvUnowned (id second_instance) m (-1)])
           \/ exists n,
                tracking held_by_first !! mtx_key second_instance = Some n
                /\ dreadlock_id (node_info n) <> this_dreadlock second_instance
                /\ unlock header_config second_instance "" (-1) held_by_first
                   = (AssertionFailed, held_by_first,
                      [EvIllegalUnlock (id second_instance)
                         (this_dreadlock second_instance) m (-1)
                         (dreadlock_id (node_info n))
                         (lock_file (node_info n)) (lock_line (node_info n))])).
Proof.
  assert (~ holds second_instance held_by_first) as H.
  { intros (n & Hn & Hid). vm_compute in Hn. injection Hn as <-. discriminate Hid. }
  split; [exact H|].
  apply (unlock_without_ownership_is_fatal header_config second_instance "" (-1)
           held_by_first H).
Defined.

(** ** Runs of [lock] *)

Lemma run_lock_finished cfg h s sched g :
  run_lock cfg h (Finished s) sched g = (Finished s, g, []).
Proof. by destruct sched. Qed.

(** [run_lock] on a schedule that is not used up, one turn unfolded. *)
Lemma run_lock_cons cfg h pc t sched g :
  run_lock cfg h pc (t :: sched) g
  = if in_progress pc then
      match interfere cfg (before t) g with
      | None => (pc, g, [])
      | Some g1 =>
          let '(pc1, g2, ev) := lock_step cfg h pc (clock t) g1 in
          let '(pc2, g3, ev') := run_lock cfg h pc1 sched g2 in
          (pc2, g3, (ev ++ ev')%list)
      end
    else (pc, g, []).
Proof. by destruct pc. Qed.

Lemma warnings_app ev1 ev2 :
  warnings (ev1 ++ ev2) = (warnings ev1 + warnings ev2)%nat.
Proof. unfold warnings. by rewrite filter_app, length_app. Qed.

Lemma warnings_left_bound pc : (warnings_left pc <= 1)%nat.
Proof. destruct pc as [l|l|l|s]; simpl; try lia; destruct (reported_performance l); lia. Qed.

Lemma loop_top_result h l g :
  exists pc g', loop_top h l g = (pc, g', [])
    /\ (pc = AtTimeCheck l \/ pc = AtPostLoop l).
Proof.
  unfold loop_top. repeat case_match; eauto.
Qed.

(** The flag [reported_performance] pays for every warning printed. *)
Lemma lock_step_warnings cfg h pc now g :
  (warnings (lock_step cfg h pc now g).2
   + warnings_left (lock_step cfg h pc now g).1.1 <= warnings_left pc)%nat.
Proof.
  destruct pc as [l|l|l|s]; simpl.
  - destruct (loop_top_result h l g) as (pc & g' & -> & [-> | ->]); simpl.
    + destruct (reported_performance l); lia.
    + lia.
  - unfold time_check.
    destruct (Z.leb (DeadlockTimeout cfg) (elapsed_ms (start l) now)); simpl; [lia|].
    destruct (reported_performance l) eqn:R; simpl.
    + rewrite andb_false_r. simpl. rewrite R. lia.
    + repeat case_match; simpl; rewrite ?R; unfold warnings; simpl; lia.
  - unfold lock_post. destruct (locked_by_me h g) as [mine g1].
    repeat case_match; unfold warnings; simpl; lia.
  - unfold warnings; simpl; lia.
Qed.

Lemma lock_step_quiet cfg h pc now g :
  PerformanceTimeout cfg = 0 -> warnings (lock_step cfg h pc now g).2 = 0%nat.
Proof.
  intros Hp. destruct pc as [l|l|l|s]; simpl.
  - by destruct (loop_top_result h l g) as (pc & g' & -> & _).
  - unfold time_check. rewrite Hp. simpl. by case_match.
  - unfold lock_post. destruct (locked_by_me h g) as [mine g1].
    repeat case_match; reflexivity.
  - reflexivity.
Qed.

Lemma run_lock_warnings cfg h sched : forall pc g,
  (warnings (run_lock cfg h pc sched g).2 <= warnings_left pc)%nat.
Proof.
  induction sched as [|t sched IH]; intros pc g.
  - destruct pc; simpl; unfold warnings; simpl; lia.
  - rewrite run_lock_cons. destruct (in_progress pc) eqn:Hpc.
    + destruct (interfere cfg (before t) g) as [g1|];
        [|unfold warnings; simpl; lia].
      pose proof (lock_step_warnings cfg h pc (clock t) g1) as Hs.
      destruct (lock_step cfg h pc (clock t) g1) as [[pc1 g2] ev].
      specialize (IH pc1 g2).
      destruct (run_lock cfg h pc1 sched g2) as [[pc2 g3] ev'].
      simpl in *. rewrite warnings_app. lia.
    + unfold warnings; simpl; lia.
Qed.

Lemma run_lock_quiet cfg h sched : forall pc g,
  PerformanceTimeout cfg = 0 -> warnings (run_lock cfg h pc sched g).2 = 0%nat.
Proof.
  induction sched as [|t sched IH]; intros pc g Hp.
  - by destruct pc.
  - rewrite run_lock_cons. destruct (in_progress pc); [|reflexivity].
    destruct (interfere cfg (before t) g) as [g1|]; [|reflexivity].
    pose proof (lock_step_quiet cfg h pc (clock t) g1 Hp) as Hs.
    destruct (lock_step cfg h pc (clock t) g1) as [[pc1 g2] ev].
    specialize (IH pc1 g2 Hp).
    destruct (run_lock cfg h pc1 sched g2) as [[pc2 g3] ev'].
    simpl in *. rewrite warnings_app. lia.
Qed.

Lemma lock_entry_warnings cfg h file line now g :
  warnings (lock_entry cfg h file line now g).2 = 0%nat.
Proof.
  unfold lock_entry, banner.
  destruct (Verbose cfg); repeat case_match; reflexivity.
Qed.

(** C7.  One call of [lock] prints the performance warning at most once,
    under every schedule and every interference, and never when
    [PerformanceTimeout] is 0. *)
Theorem performance_warning_once cfg h file line now sched g :
  (warnings (lock cfg h file line now sched g).2 <= 1)%nat
  /\ (PerformanceTimeout cfg = 0 ->
      warnings (lock cfg h file line now sched g).2 = 0%nat).
Proof.
  unfold lock.
  pose proof (lock_entry_warnings cfg h file line now g) as He.
  destruct (lock_entry cfg h file line now g) as [[pc g1] ev].
  pose proof (run_lock_warnings cfg h sched pc g1) as Hr.
  pose proof (run_lock_quiet cfg h sched pc g1) as Hq.
  destruct (run_lock cfg h pc sched g1) as [[pc1 g2] ev'].
  simpl in *. rewrite warnings_app, He. pose proof (warnings_left_bound pc).
  split; [lia|]. intros Hp. by rewrite Hq.
Qed.

Lemma holds_dec h g : holds h g \/ ~ holds h g.
Proof.
  destruct (tracking g !! mtx_key h) as [n|] eqn:Ht.
  - rewrite (holds_lookup _ _ _ Ht).
    destruct (decide (dreadlock_id (node_info n) = this_dreadlock h)); tauto.
  - right. by apply not_holds_absent.
Qed.

(** The post-loop region, case by case. *)
Lemma lock_post_mine cfg h l g :
  holds h g -> lock_post cfg h l g = (Finished Returned, g, []).
Proof. intros Hh. unfold lock_post. by rewrite (locked_by_me_holds _ _ Hh). Qed.

Lemma lock_post_null cfg h l g :
  ~ holds h g -> info l = None ->
  lock_post cfg h l g = (Finished (UndefinedBehaviour NullDereference), g, []).
Proof.
  intros Hh Hi. unfold lock_post. by rewrite (locked_by_me_not _ _ Hh), Hi.
Qed.

Lemma lock_post_freed cfg h l g p :
  ~ holds h g -> info l = Some p -> deref p g = None ->
  lock_post cfg h l g = (Finished (UndefinedBehaviour DanglingDereference), g, []).
Proof.
  intros Hh Hi Hd. unfold lock_post. by rewrite (locked_by_me_not _ _ Hh), Hi, Hd.
Qed.

Lemma lock_post_report cfg h l g p v :
  ~ holds h g -> info l = Some p -> deref p g = Some v ->
  lock_post cfg h l g
  = (Finished (if AssertOnDeadlock cfg then AssertionFailed else Returned), g,
     [EvDeadlock (id h) (loc_module l) (loc_line l) (lock_file v) (lock_line v)]).
Proof.
  intros Hh Hi Hd. unfold lock_post. by rewrite (locked_by_me_not _ _ Hh), Hi, Hd.
Qed.

Lemma time_check_result cfg h l now g :
  exists pc ev, time_check cfg h l now g = (pc, g, ev)
    /\ (pc = AtPostLoop l \/ pc = AtLoopTop l \/ pc = AtLoopTop (set_reported l)
        \/ pc = Finished (UndefinedBehaviour DanglingDereference) /\ info l <> None).
Proof.
  unfold time_check.
  repeat case_match; eexists _, _; (split; [reflexivity|]); eauto 6.
  all: right; right; right; split; [done|congruence].
Qed.

(** A call that returns without having printed the deadlock report has
    made its instance the registered holder. *)
Lemma lock_step_returned cfg h pc now g g' ev :
  in_progress pc = true ->
  lock_step cfg h pc now g = (Finished Returned, g', ev) ->
  (forall e, e ∈ ev -> is_deadlock e = false) ->
  holds h g'.
Proof.
  intros Hpc Hstep Hev. destruct pc as [l|l|l|s]; try discriminate; simpl in Hstep.
  - destruct (loop_top_result h l g) as (pc & g1 & E & [-> | ->]);
      rewrite E in Hstep; discriminate.
  - destruct (time_check_result cfg h l now g) as (pc & ev1 & E & Hcase).
    rewrite E in Hstep. injection Hstep as -> _ _.
    destruct Hcase as [?|[?|[?|[? _]]]]; discriminate.
  - destruct (holds_dec h g) as [Hh|Hh].
    + rewrite (lock_post_mine _ _ _ _ Hh) in Hstep. by injection Hstep as <- _.
    + destruct (info l) as [p|] eqn:Hi.
      * destruct (deref p g) as [v|] eqn:Hd.
        -- rewrite (lock_post_report _ _ _ _ _ _ Hh Hi Hd) in Hstep.
           injection Hstep as _ _ <-.
           specialize (Hev _ (list_elem_of_here _ _)). discriminate.
        -- rewrite (lock_post_freed _ _ _ _ _ Hh Hi Hd) in Hstep. discriminate.
      * rewrite (lock_post_null _ _ _ _ Hh Hi) in Hstep. discriminate.
Qed.

Lemma run_lock_returned cfg h sched : forall pc g g' ev,
  in_progress pc = true ->
  run_lock cfg h pc sched g = (Finished Returned, g', ev) ->
  (forall e, e ∈ ev -> is_deadlock e = false) ->
  holds h g'.
Proof.
  induction sched as [|t sched IH]; intros pc g g' ev Hpc Hrun Hev.
  - destruct pc; simpl in *; congruence.
  - rewrite run_lock_cons, Hpc in Hrun.
    destruct (interfere cfg (before t) g) as [g1|];
      [|injection Hrun as -> _ _; discriminate].
    destruct (lock_step cfg h pc (clock t) g1) as [[pc1 g2] ev1] eqn:Hstep.
    destruct (run_lock cfg h pc1 sched g2) as [[pc2 g3] ev2] eqn:Hrest.
    injection Hrun as -> -> <-.
    destruct (in_progress pc1) eqn:Hpc1.
    + apply (IH pc1 g2 g' ev2 Hpc1 Hrest).
      intros e He. apply Hev, elem_of_app. by right.
    + destruct pc1 as [| | |s]; try discriminate.
      rewrite run_lock_finished in Hrest. injection Hrest as -> <- <-.
      apply (lock_step_returned cfg h pc (clock t) g1 g2 ev1 Hpc Hstep).
      intros e He. apply Hev, elem_of_app. by left.
Qed.

Lemma no_deadlock_in (ev : list Event) :
  forallb (fun e => negb (is_deadlock e)) ev = true ->
  forall e, e ∈ ev -> is_deadlock e = false.
Proof.
  intros H e He. rewrite forallb_forall in H.
  apply list_elem_of_In, H in He. by destruct (is_deadlock e).
Qed.

Lemma lock_entry_result cfg h file line now g :
  (exists m, lock_entry cfg h file line now g
             = (Finished Returned, claimed h m line g, banner cfg h file line)
             /\ tracking g !! mtx_key h = None)
  \/ (exists ev, lock_entry cfg h file line now g = (Finished AssertionFailed, g, ev)
                 /\ holds h g)
  \/ (exists l ev, lock_entry cfg h file line now g = (AtLoopTop l, g, ev)
                   /\ (forall e, e ∈ ev -> is_deadlock e = false)
                   /\ (info l = None <-> tracking g !! mtx_key h = None)).
Proof.
  destruct (module_of_defined cfg file) as [m Hm].
  destruct (tracking g !! mtx_key h) as [n|] eqn:Ht.
  - destruct (decide (dreadlock_id (node_info n) = this_dreadlock h)) as [Hid|Hid].
    + right. left. rewrite (lock_entry_again _ _ _ _ _ _ _ _ Hm Ht Hid).
      eexists. split; [done|]. by exists n.
    + right. right. rewrite (lock_entry_contended _ _ _ _ _ _ _ _ Hm Ht Hid).
      eexists _, _. split; [done|]. split; [|done].
      apply no_deadlock_in. unfold banner. by destruct (Verbose cfg).
  - destruct (mutexes g !! mtx_key h) as [o|] eqn:Hx.
    + right. right. rewrite (lock_entry_outside _ _ _ _ _ _ _ _ Hm Ht Hx).
      eexists _, _. split; [done|]. split; [|done].
      apply no_deadlock_in. unfold banner. by destruct (Verbose cfg).
    + left. exists m. by rewrite (lock_entry_free _ _ _ _ _ _ _ Hm Ht Hx).
Qed.

Lemma lock_returned_holds cfg h file line now sched g g1 ev :
  lock cfg h file line now sched g = (Finished Returned, g1, ev) ->
  (forall e, e ∈ ev -> is_deadlock e = false) ->
  holds h g1.
Proof.
  unfold lock. intros Hlock Hev.
  destruct (lock_entry_result cfg h file line now g)
    as [(m & E & _)|[(ev0 & E & _)|(l & ev0 & E & _)]]; rewrite E in Hlock.
  - rewrite run_lock_finished in Hlock. injection Hlock as <- _.
    apply holds_claimed.
  - rewrite run_lock_finished in Hlock. discriminate.
  - destruct (run_lock cfg h (AtLoopTop l) sched g) as [[pc1 g2] ev1] eqn:Hrun.
    injection Hlock as -> -> <-.
    apply (run_lock_returned cfg h sched (AtLoopTop l) g g1 ev1 eq_refl Hrun).
    intros e He. apply Hev, elem_of_app. by right.
Qed.

Lemma released_lookup h g k :
  tracking (released h g) !! k
  = if decide (k = mtx_key h) then None else tracking g !! k.
Proof.
  simpl. case_decide as Hk.
  - subst. apply lookup_delete_eq.
  - by apply lookup_delete_ne.
Qed.

(** C6.  A call of [lock] that returns without a deadlock report,
    followed by [unlock] on the same instance, leaves no LockRecord for
    the mutex: [unlock] returns, the record and the hold on the real
    mutex are gone, and every other entry is as before. *)
Theorem lock_then_unlock cfg h file1 line1 now sched g g1 ev file2 line2 :
  lock cfg h file1 line1 now sched g = (Finished Returned, g1, ev) ->
  (forall e, e ∈ ev -> is_deadlock e = false) ->
  exists ev',
    unlock cfg h file2 line2 g1 = (Returned, released h g1, ev')
    /\ tracking (released h g1) !! mtx_key h = None
    /\ records_for (mtx_key h) (released h g1) = 0%nat
    /\ mutexes (released h g1) !! mtx_key h = None
    /\ forall k, k <> mtx_key h ->
         tracking (released h g1) !! k = tracking g1 !! k.
Proof.
  intros Hlock Hev.
  pose proof (lock_returned_holds _ _ _ _ _ _ _ _ _ Hlock Hev) as Hh.
  destruct (module_of_defined cfg file2) as [m Hm].
  destruct (unlock_mine cfg h file2 line2 g1 m Hm Hh) as [ev' E].
  exists ev'. split; [done|].
  assert (tracking (released h g1) !! mtx_key h = None) as Hgone.
  { rewrite released_lookup. by rewrite decide_True. }
  split; [done|]. split; [by rewrite records_for_lookup, Hgone|].
  split; [simpl; apply lookup_delete_eq|].
  intros k Hk. rewrite released_lookup. by rewrite decide_False.
Qed.

Lemma lock_then_unlock_witness :
  lock header_config first_instance "src/a.cpp" 10 0 [] initial
  = (Finished Returned, held_by_first, [])
  /\ exists ev',
       unlock header_config first_instance "src/a.cpp" 12 held_by_first
       = (Returned, released first_instance held_by_first, ev')
       /\ tracking (released first_instance held_by_first) !! mtx_key first_instance = None
       /\ records_for (mtx_key first_instance) (released first_instance held_by_first) = 0%nat
       /\ mutexes (released first_instance held_by_first) !! mtx_key first_instance = None
       /\ forall k, k <> mtx_key first_instance ->
            tracking (released first_instance held_by_first) !! k
            = tracking held_by_first !! k.
Proof.
  assert (lock header_config first_instance "src/a.cpp" 10 0 [] initial
          = (Finished Returned, held_by_first, [])) as H by reflexivity.
  split; [exact H|].
  apply (lock_then_unlock header_config first_instance "src/a.cpp" 10 0 []
           initial held_by_first [] "src/a.cpp" 12 H).
  intros e He. by apply elem_of_nil in He.
Defined.

(** ** The pointer [info] *)

Lemma lock_post_finished cfg h l g :
  exists s ev, lock_post cfg h l g = (Finished s, g, ev).
Proof.
  destruct (holds_dec h g) as [Hh|Hh].
  - rewrite (lock_post_mine _ _ _ _ Hh). eauto.
  - destruct (info l) as [p|] eqn:Hi.
    + destruct (deref p g) as [v|] eqn:Hd.
      * rewrite (lock_post_report _ _ _ _ _ _ Hh Hi Hd). eauto.
      * rewrite (lock_post_freed _ _ _ _ _ Hh Hi Hd). eauto.
    + rewrite (lock_post_null _ _ _ _ Hh Hi). eauto.
Qed.

(** [info] is assigned once, before the loop. *)
Lemma lock_step_info cfg h pc now g l l' :
  pc_locals pc = Some l ->
  pc_locals (lock_step cfg h pc now g).1.1 = Some l' ->
  info l' = info l.
Proof.
  intros Hl. destruct pc as [l0|l0|l0|s]; simpl in Hl; simplify_eq; simpl.
  - destruct (loop_top_result h l g) as (pc & g1 & -> & [-> | ->]); simpl; congruence.
  - destruct (time_check_result cfg h l now g) as (pc & ev & -> & Hcase); simpl.
    destruct Hcase as [->|[->|[->|[-> _]]]]; simpl; try congruence.
    by intros [= <-].
  - destruct (lock_post_finished cfg h l g) as (s & ev & ->). discriminate.
Qed.

(** The null dereference happens in the post-loop region only. *)
Lemma lock_step_null cfg h pc now g l :
  pc_locals pc = Some l ->
  (lock_step cfg h pc now g).1.1 = Finished (UndefinedBehaviour NullDereference) ->
  info l = None.
Proof.
  intros Hl. destruct pc as [l0|l0|l0|s]; simpl in Hl; simplify_eq; simpl.
  - destruct (loop_top_result h l g) as (pc & g1 & -> & [-> | ->]); discriminate.
  - destruct (time_check_result cfg h l now g) as (pc & ev & -> & Hcase); simpl.
    destruct Hcase as [->|[->|[->|[-> _]]]]; discriminate.
  - unfold lock_post. destruct (locked_by_me h g) as [[] g1]; [discriminate|].
    destruct (info l) as [p|]; [|done].
    destruct (deref p g1); [destruct (AssertOnDeadlock cfg)|]; discriminate.
Qed.

Lemma run_lock_null cfg h sched : forall pc g l,
  pc_locals pc = Some l ->
  (run_lock cfg h pc sched g).1.1 = Finished (UndefinedBehaviour NullDereference) ->
  info l = None.
Proof.
  induction sched as [|t sched IH]; intros pc g l Hl Hrun.
  - destruct pc; simpl in *; congruence.
  - rewrite run_lock_cons in Hrun.
    destruct (in_progress pc); [|simpl in Hrun; subst pc; discriminate].
    destruct (interfere cfg (before t) g) as [g1|];
      [|simpl in Hrun; subst pc; discriminate].
    pose proof (lock_step_info cfg h pc (clock t) g1 l) as Hinfo.
    pose proof (lock_step_null cfg h pc (clock t) g1 l Hl) as Hnull.
    destruct (lock_step cfg h pc (clock t) g1) as [[pc1 g2] ev1].
    specialize (IH pc1 g2).
    destruct (run_lock cfg h pc1 sched g2) as [[pc2 g3] ev2] eqn:Hrest.
    simpl in *. subst pc2.
    destruct (pc_locals pc1) as [l1|] eqn:Hl1.
    + rewrite <- (Hinfo l1 Hl eq_refl). by apply IH.
    + destruct pc1 as [| | |s]; try discriminate.
      rewrite run_lock_finished in Hrest. injection Hrest as -> _ _.
      by apply Hnull.
Qed.

(** With [info] null the deadlock report is never printed. *)
Lemma lock_step_silent cfg h pc now g l :
  pc_locals pc = Some l -> info l = None ->
  forall e, e ∈ (lock_step cfg h pc now g).2 -> is_deadlock e = false.
Proof.
  intros Hl Hi. apply no_deadlock_in.
  destruct pc as [l0|l0|l0|s]; simpl in Hl; simplify_eq; simpl.
  - by destruct (loop_top_result h l g) as (pc & g1 & -> & _).
  - unfold time_check. rewrite Hi. by repeat case_match.
  - destruct (holds_dec h g) as [Hh|Hh].
    + by rewrite (lock_post_mine _ _ _ _ Hh).
    + by rewrite (lock_post_null _ _ _ _ Hh Hi).
Qed.

Lemma run_lock_silent cfg h sched : forall pc g l,
  pc_locals pc = Some l -> info l = None ->
  forall e, e ∈ (run_lock cfg h pc sched g).2 -> is_deadlock e = false.
Proof.
  induction sched as [|t sched IH]; intros pc g l Hl Hi e.
  - destruct pc; simpl; by rewrite elem_of_nil.
  - rewrite run_lock_cons.
    destruct (in_progress pc); [|simpl; by rewrite elem_of_nil].
    destruct (interfere cfg (before t) g) as [g1|]; [|simpl; by rewrite elem_of_nil].
    pose proof (lock_step_info cfg h pc (clock t) g1 l) as Hinfo.
    pose proof (lock_step_silent cfg h pc (clock t) g1 l Hl Hi) as Hquiet.
    destruct (lock_step cfg h pc (clock t) g1) as [[pc1 g2] ev1].
    specialize (IH pc1 g2).
    destruct (run_lock cfg h pc1 sched g2) as [[pc2 g3] ev2] eqn:Hrest.
    simpl in *. rewrite elem_of_app. intros [He|He]; [by apply Hquiet|].
    destruct (pc_locals pc1) as [l1|] eqn:Hl1.
    + apply (IH l1 eq_refl); [|done]. rewrite (Hinfo l1 Hl eq_refl). done.
    + destruct pc1 as [| | |s]; try discriminate.
      rewrite run_lock_finished in Hrest. injection Hrest as _ _ <-.
      by apply elem_of_nil in He.
Qed.

(** With [info] null a call ends as the holder or in the null
    dereference. *)
Lemma lock_step_null_end cfg h pc now g l s g' ev :
  pc_locals pc = Some l -> info l = None ->
  lock_step cfg h pc now g = (Finished s, g', ev) ->
  s = Returned /\ holds h g' \/ s = UndefinedBehaviour NullDereference.
Proof.
  intros Hl Hi Hstep.
  destruct pc as [l0|l0|l0|s0]; simpl in Hl; simplify_eq; simpl in Hstep.
  - destruct (loop_top_result h l g) as (pc & g1 & E & [-> | ->]);
      rewrite E in Hstep; discriminate.
  - destruct (time_check_result cfg h l now g) as (pc & ev1 & E & Hcase).
    rewrite E in Hstep. injection Hstep as -> _ _.
    destruct Hcase as [?|[?|[?|[_ ?]]]]; done.
  - destruct (holds_dec h g) as [Hh|Hh].
    + rewrite (lock_post_mine _ _ _ _ Hh) in Hstep. injection Hstep as <- <- _.
      by left.
    + rewrite (lock_post_null _ _ _ _ Hh Hi) in Hstep. injection Hstep as <- _ _.
      by right.
Qed.

Lemma run_lock_null_end cfg h sched : forall pc g l s g' ev,
  pc_locals pc = Some l -> info l = None ->
  run_lock cfg h pc sched g = (Finished s, g', ev) ->
  s = Returned /\ holds h g' \/ s = UndefinedBehaviour NullDereference.
Proof.
  induction sched as [|t sched IH]; intros pc g l s g' ev Hl Hi Hrun.
  - destruct pc; simpl in *; congruence.
  - rewrite run_lock_cons in Hrun.
    destruct (in_progress pc) eqn:Hpc;
      [|injection Hrun as -> _ _; discriminate].
    destruct (interfere cfg (before t) g) as [g1|];
      [|injection Hrun as -> _ _; discriminate].
    pose proof (lock_step_info cfg h pc (clock t) g1 l) as Hinfo.
    destruct (lock_step cfg h pc (clock t) g1) as [[pc1 g2] ev1] eqn:Hstep.
    destruct (run_lock cfg h pc1 sched g2) as [[pc2 g3] ev2] eqn:Hrest.
    injection Hrun as -> -> <-. simpl in Hinfo.
    destruct (pc_locals pc1) as [l1|] eqn:Hl1.
    + apply (IH pc1 g2 l1 s g' ev2 Hl1); [|done].
      by rewrite (Hinfo l1 Hl eq_refl).
    + destruct pc1 as [| | |s1]; try discriminate.
      rewrite run_lock_finished in Hrest. injection Hrest as -> <- _.
      by apply (lock_step_null_end cfg h pc (clock t) g1 l s g2 ev1).
Qed.

(** C9.  The deadlock report is reached with [info] null.  When no
    record is found at entry and the real mutex is held outside the
    registry's knowledge, and this is still so at the first pass of the
    loop, the call leaves the loop without the lock and the report reads
    through the null pointer.  A call ends that way only if no record
    was found at entry; and after such an entry the call never prints
    the report at all: it ends as the registered holder or in the null
    dereference. *)
Theorem report_reached_with_null_info cfg h file line now g :
  (forall o t1 t2 g1 g2,
     tracking g !! mtx_key h = None -> mutexes g !! mtx_key h = Some o ->
     interfere cfg (before t1) g = Some g1 ->
     tracking g1 !! mtx_key h = None -> is_Some (mutexes g1 !! mtx_key h) ->
     interfere cfg (before t2) g1 = Some g2 ->
     ~ holds h g2 ->
     lock cfg h file line now [t1; t2] g
     = (Finished (UndefinedBehaviour NullDereference), g2, banner cfg h file line))
  /\ (forall sched,
        (lock cfg h file line now sched g).1.1
        = Finished (UndefinedBehaviour NullDereference) ->
        tracking g !! mtx_key h = None)
  /\ (forall sched,
        tracking g !! mtx_key h = None ->
        forall e, e ∈ (lock cfg h file line now sched g).2 -> is_deadlock e = false)
  /\ (forall sched s,
        tracking g !! mtx_key h = None ->
        (lock cfg h file line now sched g).1.1 = Finished s ->
        s = Returned /\ holds h (lock cfg h file line now sched g).1.2
        \/ s = UndefinedBehaviour NullDereference).
Proof.
  split; [|split; [|split]].
  - intros o t1 t2 g1 g2 Ht Hx H1 Ht1 [o1 Hx1] H2 Hh.
    destruct (module_of_defined cfg file) as [m Hm].
    unfold lock. rewrite (lock_entry_outside _ _ _ _ _ _ _ _ Hm Ht Hx).
    rewrite run_lock_cons. simpl in_progress. cbv iota. rewrite H1. simpl lock_step.
    rewrite (loop_top_outside _ _ _ _ Ht1 Hx1).
    rewrite run_lock_cons. simpl in_progress. cbv iota. rewrite H2. simpl lock_step.
    rewrite lock_post_null by done. simpl. by rewrite app_nil_r.
  - intros sched. unfold lock.
    destruct (lock_entry_result cfg h file line now g)
      as [(m & E & Ht)|[(ev0 & E & _)|(l & ev0 & E & _ & Hi)]]; rewrite E.
    + done.
    + rewrite run_lock_finished. discriminate.
    + pose proof (run_lock_null cfg h sched (AtLoopTop l) g l eq_refl) as Hnull.
      destruct (run_lock cfg h (AtLoopTop l) sched g) as [[pc1 g2] ev1].
      simpl in *. intros Hpc. by apply Hi, Hnull.
  - intros sched Ht e. unfold lock.
    destruct (lock_entry_result cfg h file line now g)
      as [(m & E & _)|[(ev0 & E & (n & Hn & _))|(l & ev0 & E & Hev & Hi)]]; rewrite E.
    + rewrite run_lock_finished. simpl. rewrite app_nil_r.
      apply no_deadlock_in. unfold banner. by destruct (Verbose cfg).
    + congruence.
    + pose proof (run_lock_silent cfg h sched (AtLoopTop l) g l eq_refl
                    (proj2 Hi Ht)) as Hquiet.
      destruct (run_lock cfg h (AtLoopTop l) sched g) as [[pc1 g2] ev1].
      simpl in *. rewrite elem_of_app. intros [He|He]; [by apply Hev|by apply Hquiet].
  - intros sched s Ht. unfold lock.
    destruct (lock_entry_result cfg h file line now g)
      as [(m & E & _)|[(ev0 & E & (n & Hn & _))|(l & ev0 & E & _ & Hi)]]; rewrite E.
    + rewrite run_lock_finished. simpl. intros [= <-]. left.
      split; [done|apply holds_claimed].
    + congruence.
    + destruct (run_lock cfg h (AtLoopTop l) sched g) as [[pc1 g2] ev1] eqn:Hrun.
      simpl. intros ->.
      by apply (run_lock_null_end cfg h sched (AtLoopTop l) g l s g2 ev1 eq_refl
                  (proj2 Hi Ht)).
Qed.

Lemma report_reached_with_null_info_witness :
  lock header_config first_instance "src/a.cpp" 10 0
    [quiet 500000; quiet 500000] locked_outside
  = (Finished (UndefinedBehaviour NullDereference), locked_outside,
     banner header_config first_instance "src/a.cpp" 10).
Proof.
  apply (proj1 (report_reached_with_null_info header_config first_instance
                  "src/a.cpp" 10 0 locked_outside)
           External (quiet 500000) (quiet 500000) locked_outside locked_outside);
    try reflexivity.
  - exists External. reflexivity.
  - apply not_holds_absent. reflexivity.
Defined.

(** C3, at the input where the code departs from it.  Mutex 7 is locked
    outside Dreadlock and has no record.  Whatever the configuration,
    [lock] leaves the loop without the lock and then, where the report
    should name the holder's location (line 250), reads through the null
    [info]: the behaviour is undefined, the report is not completed, the
    [assert] of line 254 is not reached and the call does not return. *)
Theorem deadlock_report_reads_null cfg :
  lock cfg first_instance "src/a.cpp" 10 0
    [quiet 500000; quiet 500000] locked_outside
  = (Finished (UndefinedBehaviour NullDereference), locked_outside,
     banner cfg first_instance "src/a.cpp" 10).
Proof.
  destruct cfg as [a p d s v]. destruct s, v; reflexivity.
Qed.

(** ** Interference *)

(** Only the recorded holder can remove a record: acts of other
    instances leave [h] the holder. *)
Lemma perform_foreign_holds cfg a h g :
  foreign h a -> holds h g -> holds h (perform cfg a g).1.
Proof.
  intros Hf (n & Ht & Hid).
  destruct (key_change_perform cfg a g (mtx_key h))
    as [E|h' n' _ _ Hnone|h' n' _ Ha _ Ht' Hid' _].
  - exists n. by rewrite E.
  - congruence.
  - destruct (Hf h' Ha). congruence.
Qed.

Lemma interfere_foreign_holds cfg h acts : forall g g1,
  Forall (foreign h) acts -> interfere cfg acts g = Some g1 ->
  holds h g -> holds h g1.
Proof.
  induction acts as [|a acts IH]; intros g g1 Hf Hrun Hh; simpl in Hrun.
  - by injection Hrun as <-.
  - apply Forall_cons in Hf as [Ha Hf].
    pose proof (perform_foreign_holds cfg a h g Ha Hh) as Hh1.
    destruct (perform cfg a g) as [g0 alive]. destruct alive; [|discriminate].
    by apply (IH g0 g1).
Qed.

(** C8.  The destructor of an instance that the registry names as the
    holder calls [unlock], which finds it still the holder (other
    threads cannot have changed that), returns, removes the record and
    releases the real mutex.  The file passed is the one recorded by
    [destruct] unless that is empty, then the marker
    "Dreadlock::~Dreadlock()"; the line passed is the recorded one unless
    that is 0, then the line of the destructor.  The destructor of an
    instance that is not the holder changes nothing and prints nothing. *)
Theorem destructor_protocol cfg h between g :
  Forall (foreign h) between ->
  (holds h g -> forall g1, interfere cfg between g = Some g1 ->
     exists ev,
       Dreadlock_dtor cfg h between g
       = Some (unlock cfg h (dtor_file h) (dtor_unlock_line h) g1)
       /\ unlock cfg h (dtor_file h) (dtor_unlock_line h) g1
          = (Returned, released h g1, ev)
       /\ tracking (released h g1) !! mtx_key h = None
       /\ mutexes (released h g1) !! mtx_key h = None)
  /\ (~ holds h g -> Dreadlock_dtor cfg h between g = Some (Returned, g, []))
  /\ (destruct_file h <> "" -> dtor_file h = destruct_file h)
  /\ (destruct_file h = "" -> dtor_file h = "Dreadlock::~Dreadlock()")
  /\ (destruct_line h <> 0 -> dtor_unlock_line h = destruct_line h)
  /\ (destruct_line h = 0 -> dtor_unlock_line h = 65)
  /\ (forall file line,
        let h' := Dreadlock_destruct h file line in
        destruct_file h' = file /\ destruct_line h' = line
        /\ this_dreadlock h' = this_dreadlock h /\ mtx_key h' = mtx_key h)
  /\ (forall key name g0,
        destruct_file (take_id key name g0).1 = ""
        /\ destruct_line (take_id key name g0).1 = 0).
Proof.
  intros Hf.
  split; [|split; [|split; [|split; [|split; [|split; [|split]]]]]].
  - intros Hh g1 Hrun. unfold Dreadlock_dtor.
    rewrite (locked_by_me_holds _ _ Hh), Hrun.
    pose proof (interfere_foreign_holds cfg h between g g1 Hf Hrun Hh) as Hh1.
    destruct (module_of_defined cfg (dtor_file h)) as [m Hm].
    destruct (unlock_mine cfg h (dtor_file h) (dtor_unlock_line h) g1 m Hm Hh1)
      as [ev E].
    exists ev. split; [done|]. split; [done|].
    split; simpl; apply lookup_delete_eq.
  - intros Hh. unfold Dreadlock_dtor. by rewrite (locked_by_me_not _ _ Hh).
  - unfold dtor_file. by destruct (destruct_file h).
  - unfold dtor_file. by intros ->.
  - unfold dtor_unlock_line. intros Hl. apply Z.eqb_neq in Hl. by rewrite Hl.
  - unfold dtor_unlock_line. by intros ->.
  - intros file line. by repeat split.
  - intros key name g0. by split.
Qed.

Lemma destructor_protocol_witness :
  let h := Dreadlock_destruct first_instance "src/a.cpp" 30 in
  let between := [ActLockEntry second_instance "src/b.cpp" 20 0] in
  Forall (foreign h) between
  /\ holds h held_by_first
  /\ interfere header_config between held_by_first = Some held_by_first
  /\ exists ev,
       Dreadlock_dtor header_config h between held_by_first
       = Some (unlock header_config h "src/a.cpp" 30 held_by_first)
       /\ unlock header_config h "src/a.cpp" 30 held_by_first
          = (Returned, released h held_by_first, ev)
       /\ tracking (released h held_by_first) !! mtx_key h = None
       /\ mutexes (released h held_by_first) !! mtx_key h = None.
Proof.
  intros h between.
  assert (Forall (foreign h) between) as Hf.
  { apply Forall_cons. split; [|by apply Forall_nil].
    intros h' [= <-]. simpl. discriminate. }
  assert (holds h held_by_first) as Hh by apply (holds_claimed first_instance).
  assert (interfere header_config between held_by_first = Some held_by_first)
    as Hrun by reflexivity.
  split; [exact Hf|]. split; [exact Hh|]. split; [exact Hrun|].
  exact (proj1 (destructor_protocol header_config h between held_by_first Hf)
           Hh held_by_first Hrun).
Defined.

(** ** get_module_name on every path *)

Lemma regex_search_prefix s p r :
  regex_search s = Some (p, r) -> has_separator p = false.
Proof.
  revert p r. induction s as [|c s IH]; intros p r; simpl; [discriminate|].
  destruct (is_separator c) eqn:Hc.
  - by intros [= <- <-].
  - destruct (regex_search s) as [[p' r']|] eqn:E; [|discriminate].
    intros [= <- <-]. simpl. rewrite Hc. by apply (IH p' r').
Qed.

Lemma later_tokens_plain fuel : forall s,
  Forall (fun t => has_separator t = false) (later_tokens fuel s).
Proof.
  induction fuel as [|fuel IH]; intros s; simpl; [constructor|].
  destruct (regex_search s) as [[p r]|] eqn:E.
  - constructor; [by apply regex_search_prefix in E|apply IH].
  - apply regex_search_none in E. destruct s; repeat constructor. done.
Qed.

Lemma tokens_plain path :
  Forall (fun t => has_separator t = false) (tokens path).
Proof.
  unfold tokens. destruct (regex_search path) as [[p r]|] eqn:E.
  - constructor; [by apply regex_search_prefix in E|apply later_tokens_plain].
  - apply regex_search_none in E. by repeat constructor.
Qed.

Lemma unlock_status cfg h file line g :
  (unlock cfg h file line g).1.1 = Returned
  \/ (unlock cfg h file line g).1.1 = AssertionFailed.
Proof.
  destruct (module_of_defined cfg file) as [m Hm].
  destruct (tracking g !! mtx_key h) as [n|] eqn:Ht.
  - destruct (decide (dreadlock_id (node_info n) = this_dreadlock h)) as [Hid|Hid].
    + assert (holds h g) as Hh by (by exists n).
      destruct (unlock_mine cfg h file line g m Hm Hh) as [ev ->]. by left.
    + rewrite (unlock_not_owner _ _ _ _ _ _ _ Hm Ht Hid). by right.
  - rewrite (unlock_unowned _ _ _ _ _ _ Hm Ht). by right.
Qed.

(** C10, as the code has it.  [get_module_name] returns the last token
    of the path split at runs of separators, and [back()] always has an
    element to return: the token vector is never empty, a path without
    separator being its own single token.  The result contains no
    separator and is fixed by the shape of the path, one of three: a path
    of separators only (the empty path is one) gives the empty name; a
    name with only separators after it gives that name, alone or behind
    a separator and whatever precedes it, because an empty remainder
    after the last separator is not a token.  So a path without
    separator gives itself, and the name after the last separator is the
    result when that name is not empty.  [unlock] never runs into an
    empty vector, whatever file it is given, the defaulted empty string
    included. *)
Theorem get_module_name_total path :
  tokens path <> []
  /\ (has_separator path = false -> tokens path = [path])
  /\ exists m,
       get_module_name path = Some m
       /\ has_separator m = false
       /\ (has_separator path = false -> m = path)
       /\ (forall dir c name,
             path = dir +:+ String c name -> is_separator c = true ->
             has_separator name = false -> name <> "" -> m = name)
       /\ (all_separators path = true -> m = "")
       /\ (forall name seps,
             path = name +:+ seps -> has_separator name = false -> name <> "" ->
             all_separators seps = true -> m = name)
       /\ (forall dir c name seps,
             path = dir +:+ String c (name +:+ seps) -> is_separator c = true ->
             has_separator name = false -> name <> "" ->
             all_separators seps = true -> m = name)
       /\ (all_separators path = true
           \/ (exists name seps,
                 path = name +:+ seps /\ has_separator name = false
                 /\ name <> "" /\ all_separators seps = true)
           \/ (exists dir c name seps,
                 path = dir +:+ String c (name +:+ seps) /\ is_separator c = true
                 /\ has_separator name = false /\ name <> ""
                 /\ all_separators seps = true))
       /\ forall cfg h line g,
            (unlock cfg h path line g).1.1 <> UndefinedBehaviour BackOfEmptyVector.
Proof.
  split; [apply tokens_not_empty|]. split.
  { intros Hp. unfold tokens. apply regex_search_none in Hp. by rewrite Hp. }
  destruct (get_module_name_defined path) as [m Hm]. exists m.
  split; [done|]. split; [|split; [|split; [|split; [|split; [|split; [|split]]]]]].
  - pose proof (tokens_plain path) as Hall. rewrite Forall_forall in Hall.
    apply Hall. unfold get_module_name, vector_back in Hm.
    by apply last_Some_elem_of.
  - intros Hp. rewrite (get_module_name_plain _ Hp) in Hm. congruence.
  - intros dir c name -> Hc Hn Hne.
    rewrite (get_module_name_last_segment c name Hc Hn Hne dir) in Hm. congruence.
  - intros Hs. rewrite (get_module_name_separators path Hs) in Hm. congruence.
  - intros name seps -> Hn Hne Hs. unfold get_module_name, vector_back in Hm.
    rewrite (tokens_tail name seps Hn Hs) in Hm. simpl in Hm. congruence.
  - intros dir c name seps -> Hc Hn Hne Hs.
    rewrite (get_module_name_before_tail name seps Hn Hne Hs c Hc dir) in Hm.
    congruence.
  - apply path_shape.
  - intros cfg h line g.
    destruct (unlock_status cfg h path line g) as [E|E]; rewrite E; discriminate.
Qed.

(** C10, as the claim has it, fails: for the empty string the token
    vector holds one (empty) token, so [back()] is defined; [unlock] with
    its defaulted arguments and [ShortModuleNames] enabled runs
    normally. *)
Lemma module_name_of_empty_path :
  tokens "" = [""]
  /\ get_module_name "" = Some ""
  /\ ShortModuleNames header_config = true
  /\ unlock header_config first_instance "" (-1) held_by_first
     = (Returned, released first_instance held_by_first, [])
  /\ unlock header_config first_instance "" (-1) initial
     = (AssertionFailed, initial, [EvUnowned "mtx" "" (-1)]).
Proof. repeat split. Qed.

(** ** The registry and the real mutexes *)

(** The state an act leaves behind. *)
Lemma perform_state cfg a g :
  (perform cfg a g).1 = g
  \/ (exists h m line,
        (perform cfg a g).1 = claimed h m line g
        /\ tracking g !! mtx_key h = None /\ mutexes g !! mtx_key h = None)
  \/ (exists h, (perform cfg a g).1 = released h g /\ holds h g)
  \/ (exists key name, (perform cfg a g).1 = (take_id key name g).2)
  \/ (exists k, (perform cfg a g).1 = set_mutexes (<[k := External]> (mutexes g)) g
                /\ mutexes g !! k = None)
  \/ (exists k, (perform cfg a g).1 = mtx_unlock k g
                /\ mutexes g !! k = Some External).
Proof.
  destruct a as [key name|h file line now|h pc now|h file line|h|k|k]; simpl.
  - right. right. right. left. eauto.
  - destruct (module_of_defined cfg file) as [m Hm].
    destruct (tracking g !! mtx_key h) as [n|] eqn:Ht.
    + destruct (decide (dreadlock_id (node_info n) = this_dreadlock h)) as [Hid|Hid].
      * rewrite (lock_entry_again _ _ _ _ _ _ _ _ Hm Ht Hid). by left.
      * rewrite (lock_entry_contended _ _ _ _ _ _ _ _ Hm Ht Hid). by left.
    + destruct (mutexes g !! mtx_key h) as [o|] eqn:Hx.
      * rewrite (lock_entry_outside _ _ _ _ _ _ _ _ Hm Ht Hx). by left.
      * rewrite (lock_entry_free _ _ _ _ _ _ _ Hm Ht Hx). right. left. eauto 6.
  - destruct pc as [l|l|l|s]; simpl.
    + destruct (tracking g !! mtx_key h) as [n|] eqn:Ht.
      * rewrite (loop_top_present _ _ _ _ Ht). by left.
      * destruct (mutexes g !! mtx_key h) as [o|] eqn:Hx.
        -- rewrite (loop_top_outside _ _ _ _ Ht Hx). by left.
        -- rewrite (loop_top_free _ _ _ Ht Hx). right. left. eauto 6.
    + destruct (time_check_result cfg h l now g) as (pc & ev & -> & _). by left.
    + destruct (lock_post_finished cfg h l g) as (s & ev & ->). by left.
    + by left.
  - destruct (unlock_state cfg h file line g) as [[E _]|[E Hh]];
      destruct (unlock cfg h file line g) as [[s g1] ev]; simpl in *; subst g1.
    + by left.
    + right. right. left. eauto.
  - rewrite locked_by_me_state. by left.
  - destruct (mutexes g !! k) eqn:Hx; [by left|].
    right. right. right. right. left. eauto.
  - destruct (mutexes g !! k) as [[d|]|] eqn:Hx; try by left.
    right. right. right. right. right. eauto.
Qed.

Lemma consistent_initial : consistent initial.
Proof.
  intros k. split.
  - intros n Hn. simpl in Hn. by rewrite lookup_empty in Hn.
  - intros d Hd. simpl in Hd. by rewrite lookup_empty in Hd.
Qed.

Lemma consistent_claimed h m line g :
  consistent g ->
  tracking g !! mtx_key h = None -> mutexes g !! mtx_key h = None ->
  consistent (claimed h m line g).
Proof.
  intros Hc Ht Hx k. destruct (Hc k) as [Hc1 Hc2]. simpl.
  destruct (decide (k = mtx_key h)) as [->|Hk].
  - rewrite !lookup_insert_eq. split.
    + intros n [= <-]. simpl. split; [done|lia].
    + intros d [= <-]. eauto.
  - rewrite !lookup_insert_ne by done. split; [|done].
    intros n Hn. destruct (Hc1 n Hn). split; [done|lia].
Qed.

Lemma consistent_released h g : consistent g -> consistent (released h g).
Proof.
  intros Hc k. destruct (Hc k) as [Hc1 Hc2]. simpl.
  destruct (decide (k = mtx_key h)) as [->|Hk].
  - rewrite !lookup_delete_eq. split; [done|done].
  - rewrite !lookup_delete_ne by done. done.
Qed.

Lemma perform_consistent cfg a g :
  consistent g -> consistent (perform cfg a g).1.
Proof.
  intros Hc.
  destruct (perform_state cfg a g)
    as [->|[(h & m & line & -> & Ht & Hx)|[(h & -> & Hh)|[(key & name & ->)
       |[(k' & -> & Hx)|(k' & -> & Hx)]]]]].
  - done.
  - by apply consistent_claimed.
  - by apply consistent_released.
  - exact Hc.
  - intros k. destruct (Hc k) as [Hc1 Hc2]. simpl.
    destruct (decide (k = k')) as [->|Hk].
    + rewrite lookup_insert_eq. split; [|done].
      intros n Hn. destruct (Hc1 n Hn). congruence.
    + by rewrite lookup_insert_ne.
  - intros k. destruct (Hc k) as [Hc1 Hc2]. simpl.
    destruct (decide (k = k')) as [->|Hk].
    + rewrite lookup_delete_eq. split; [|done].
      intros n Hn. destruct (Hc1 n Hn). congruence.
    + by rewrite lookup_delete_ne.
Qed.

(** In a running process the registry and the real mutexes agree. *)
Lemma running_consistent cfg g : running cfg g -> consistent g.
Proof.
  induction 1 as [|a g g' _ IH Hstep].
  - apply consistent_initial.
  - pose proof (perform_consistent cfg a g IH) as Hc. by rewrite Hstep in Hc.
Qed.

Lemma reachable_consistent cfg g : reachable cfg g -> consistent g.
Proof.
  intros [Hr|(a & g0 & Hr & ->)].
  - by apply (running_consistent cfg).
  - apply perform_consistent. by apply (running_consistent cfg).
Qed.

(** An instance that is not the recorded holder does not have the real
    mutex locked. *)
Lemma not_holder_not_owner h g :
  consistent g -> ~ holds h g ->
  mutexes g !! mtx_key h <> Some (ByDreadlock (this_dreadlock h)).
Proof.
  intros Hc Hh Hx. destruct (Hc (mtx_key h)) as [_ Hc2].
  destruct (Hc2 _ Hx) as (n & Hn & Hid). apply Hh. by exists n.
Qed.

(** The deadlock report when [info] still points to a live node: the
    location printed is the one in the registry's current record for the
    mutex; the [assert] fails exactly when [AssertOnDeadlock] is set, and
    otherwise the call returns with the caller neither recorded as
    holder nor in possession of the real mutex. *)
Lemma deadlock_report_live cfg h l g p v :
  consistent g -> ~ holds h g -> info l = Some p -> deref p g = Some v ->
  lock_post cfg h l g
  = (Finished (if AssertOnDeadlock cfg then AssertionFailed else Returned), g,
     [EvDeadlock (id h) (loc_module l) (loc_line l) (lock_file v) (lock_line v)])
  /\ (exists n, tracking g !! ptr_key p = Some n /\ node_info n = v)
  /\ mutexes g !! mtx_key h <> Some (ByDreadlock (this_dreadlock h)).
Proof.
  intros Hc Hh Hi Hd. split; [by apply (lock_post_report cfg h l g p v)|].
  split; [|by apply not_holder_not_owner].
  unfold deref in Hd. destruct (tracking g !! ptr_key p) as [n|]; [|discriminate].
  exists n. split; [done|]. destruct (N.eqb _ _); congruence.
Qed.

(** The deadlock report after the holder has changed while the caller
    was waiting: the node [info] points to has been erased, and the
    report reads freed memory. *)
Lemma deadlock_report_reads_freed_node :
  lock header_config second_instance "src/b.cpp" 20 0 handover held_by_first
  = (Finished (UndefinedBehaviour DanglingDereference),
     claimed third_instance "c.cpp" 30 (released first_instance held_by_first),
     []).
Proof. reflexivity. Qed.

(** The deadlock report as intended: the holder keeps the mutex beyond
    the timeout. *)
Lemma deadlock_report_printed :
  lock header_config second_instance "src/b.cpp" 20 0
    [quiet 500000; quiet 5000000000; quiet 5000000000] held_by_first
  = (Finished AssertionFailed, held_by_first,
     [EvDeadlock "mtx" "b.cpp" 20 "a.cpp" 10]).
Proof. reflexivity. Qed.

(** ** Scenarios *)

(** One performance warning, no deadlock report, lock acquired. *)
Lemma performance_warning_scenario :
  lock header_config second_instance "src/b.cpp" 20 0 held_two_seconds held_by_first
  = (Finished Returned,
     claimed second_instance "b.cpp" 20 (released first_instance held_by_first),
     [EvWaited "mtx" "b.cpp" 20 1000 (Some ("a.cpp", 10))]).
Proof. reflexivity. Qed.

Lemma lock_entry_start cfg h file line now g l g' ev :
  lock_entry cfg h file line now g = (AtLoopTop l, g', ev) ->
  start l = now /\ reported_performance l = false.
Proof.
  destruct (module_of_defined cfg file) as [m Hm].
  destruct (tracking g !! mtx_key h) as [n|] eqn:Ht.
  - destruct (decide (dreadlock_id (node_info n) = this_dreadlock h)) as [Hid|Hid].
    + rewrite (lock_entry_again _ _ _ _ _ _ _ _ Hm Ht Hid). discriminate.
    + rewrite (lock_entry_contended _ _ _ _ _ _ _ _ Hm Ht Hid). by intros [= <- _ _].
  - destruct (mutexes g !! mtx_key h) as [o|] eqn:Hx.
    + rewrite (lock_entry_outside _ _ _ _ _ _ _ _ Hm Ht Hx). by intros [= <- _ _].
    + rewrite (lock_entry_free _ _ _ _ _ _ _ Hm Ht Hx). discriminate.
Qed.

(** The wait ends: left alone, a call whose clock has reached the
    deadlock timeout finishes within three regions. *)
Lemma lock_finishes_after_timeout cfg h file line now t1 t2 t3 sched g :
  before t1 = [] -> before t2 = [] -> before t3 = [] ->
  DeadlockTimeout cfg <= elapsed_ms now (clock t2) ->
  exists s g' ev,
    lock cfg h file line now (t1 :: t2 :: t3 :: sched) g = (Finished s, g', ev).
Proof.
  intros B1 B2 B3 Hd. unfold lock.
  destruct (lock_entry cfg h file line now g) as [[pc g0] ev0] eqn:He.
  destruct pc as [l|l|l|s].
  - destruct (lock_entry_start _ _ _ _ _ _ _ _ _ He) as [Hs _].
    rewrite run_lock_cons. simpl in_progress. cbv iota. rewrite B1. simpl interfere.
    simpl lock_step.
    destruct (loop_top_result h l g0) as (pc & g1 & -> & [-> | ->]).
    + rewrite run_lock_cons. simpl in_progress. cbv iota. rewrite B2. simpl interfere.
      simpl lock_step. unfold time_check. rewrite Hs.
      apply Z.leb_le in Hd. rewrite Hd.
      rewrite run_lock_cons. simpl in_progress. cbv iota. rewrite B3. simpl interfere.
      simpl lock_step.
      destruct (lock_post_finished cfg h l g1) as (s & ev & ->).
      rewrite run_lock_finished. eauto.
    + rewrite run_lock_cons. simpl in_progress. cbv iota. rewrite B2. simpl interfere.
      simpl lock_step.
      destruct (lock_post_finished cfg h l g1) as (s & ev & ->).
      rewrite run_lock_finished. eauto.
  - unfold lock_entry in He. repeat case_match; discriminate.
  - unfold lock_entry in He. repeat case_match; discriminate.
  - rewrite run_lock_finished. eauto.
Qed.

(** ** The claims at sample inputs *)

Lemma registry_one_record_per_mutex_witness :
  reachable header_config held_by_first
  /\ (records_for 7 held_by_first <= 1)%nat.
Proof.
  assert (reachable header_config held_by_first) as H.
  { left.
    apply (running_step header_config
             (ActLockEntry first_instance "src/a.cpp" 10 0) initial);
      [apply running_initial|reflexivity]. }
  split; [exact H|].
  exact (proj1 (registry_one_record_per_mutex header_config) held_by_first H 7%N).
Defined.

Lemma performance_warning_once_witness :
  PerformanceTimeout silent_config = 0
  /\ warnings (lock silent_config second_instance "src/b.cpp" 20 0
                 held_two_seconds held_by_first).2 = 0%nat.
Proof.
  split; [reflexivity|].
  exact (proj2 (performance_warning_once silent_config second_instance
                  "src/b.cpp" 20 0 held_two_seconds held_by_first) eq_refl).
Defined.

Lemma get_module_name_total_witness :
  has_separator "b.cpp" = false /\ "b.cpp" <> "" /\ all_separators "/\/" = true
  /\ is_separator "/" = true
  /\ exists m, get_module_name "C:\a/b.cpp/\/" = Some m /\ m = "b.cpp".
Proof.
  split; [reflexivity|]. split; [discriminate|]. split; [reflexivity|].
  split; [reflexivity|].
  destruct (get_module_name_total "C:\a/b.cpp/\/")
    as [_ [_ (m & Hm & _ & _ & _ & _ & _ & Htail & _)]].
  exists m. split; [exact Hm|].
  exact (Htail "C:\a" "/"%char "b.cpp" "/\/" eq_refl eq_refl eq_refl
           ltac:(discriminate) eq_refl).
Defined.

(** * Further properties of the code *)

(** ** Acts of other instances *)

Lemma perform_foreign_lookup cfg a h g :
  foreign h a -> holds h g ->
  tracking (perform cfg a g).1 !! mtx_key h = tracking g !! mtx_key h.
Proof.
  intros Hf (n & Ht & Hid).
  destruct (key_change_perform cfg a g (mtx_key h))
    as [E|h' n' _ _ Hnone|h' n' _ Ha _ Ht' Hid' _].
  - done.
  - congruence.
  - destruct (Hf h' Ha). congruence.
Qed.

Lemma interfere_foreign_lookup cfg h acts : forall g g1,
  Forall (foreign h) acts -> interfere cfg acts g = Some g1 ->
  holds h g ->
  tracking g1 !! mtx_key h = tracking g !! mtx_key h.
Proof.
  induction acts as [|a acts IH]; intros g g1 Hf Hrun Hh; simpl in Hrun.
  - by injection Hrun as <-.
  - apply Forall_cons in Hf as [Ha Hf].
    pose proof (perform_foreign_holds cfg a h g Ha Hh) as Hh1.
    pose proof (perform_foreign_lookup cfg a h g Ha Hh) as Hl.
    destruct (perform cfg a g) as [g0 alive]. destruct alive; [|discriminate].
    simpl in *. rewrite <- Hl. by apply IH.
Qed.

(** Acts of other instances do not make [h] the holder either. *)
Lemma perform_foreign_not_holds cfg a h g :
  foreign h a -> ~ holds h g -> ~ holds h (perform cfg a g).1.
Proof.
  intros Hf Hn (n & Ht & Hid).
  destruct (key_change_perform cfg a g (mtx_key h))
    as [E|h' n' Ha _ _ _ Ht' Hid' _|h' n' _ _ _ _ _ Ht'].
  - apply Hn. exists n. by rewrite <- E.
  - destruct (Hf h' Ha). congruence.
  - congruence.
Qed.

Lemma interfere_foreign_not_holds cfg h acts : forall g g1,
  Forall (foreign h) acts -> interfere cfg acts g = Some g1 ->
  ~ holds h g -> ~ holds h g1.
Proof.
  induction acts as [|a acts IH]; intros g g1 Hf Hrun Hh; simpl in Hrun.
  - by injection Hrun as <-.
  - apply Forall_cons in Hf as [Ha Hf].
    pose proof (perform_foreign_not_holds cfg a h g Ha Hh) as Hh1.
    destruct (perform cfg a g) as [g0 alive]. destruct alive; [|discriminate].
    by apply (IH g0 g1).
Qed.

Lemma lock_step_as_act cfg h pc now g :
  (lock_step cfg h pc now g).1.2 = (perform cfg (ActLockStep h pc now) g).1.
Proof. simpl. by destruct (lock_step cfg h pc now g) as [[pc1 g1] ev]. Qed.

Lemma lock_entry_as_act cfg h file line now g :
  (lock_entry cfg h file line now g).1.2
  = (perform cfg (ActLockEntry h file line now) g).1.
Proof. simpl. by destruct (lock_entry cfg h file line now g) as [[pc1 g1] ev]. Qed.

Lemma foreign_other_instance a b (act : Act) :
  actor act = Some b -> this_dreadlock b <> this_dreadlock a -> foreign a act.
Proof. intros Hb Hne h' Hh'. congruence. Qed.

Lemma holders_exclude a b g :
  mtx_key b = mtx_key a -> this_dreadlock b <> this_dreadlock a ->
  holds a g -> ~ holds b g.
Proof.
  intros Hk Hne (n & Ht & Hid) (n' & Ht' & Hid'). rewrite Hk in Ht'. congruence.
Qed.

(** ** The registry and the real mutexes *)

(** X1.  In every state a process goes through, the registry and the
    real mutexes agree: a mutex has a record exactly when it is locked
    through Dreadlock, and the record names the instance that locked it.
    (Code outside Dreadlock is taken to unlock only what it locked.) *)
Theorem registry_matches_mutexes cfg g k :
  reachable cfg g ->
  (forall n, tracking g !! k = Some n ->
     mutexes g !! k = Some (ByDreadlock (dreadlock_id (node_info n))))
  /\ (forall d, mutexes g !! k = Some (ByDreadlock d) ->
        exists n, tracking g !! k = Some n /\ dreadlock_id (node_info n) = d)
  /\ (tracking g !! k = None ->
        mutexes g !! k = None \/ mutexes g !! k = Some External).
Proof.
  intros Hr. destruct (reachable_consistent cfg g Hr k) as [H1 H2].
  split; [|split].
  - intros n Hn. by destruct (H1 n Hn).
  - done.
  - intros Ht. destruct (mutexes g !! k) as [[d|]|] eqn:Hx; [|by right|by left].
    destruct (H2 d eq_refl) as (n & Hn & _). congruence.
Qed.

Lemma registry_matches_mutexes_witness :
  reachable header_config held_by_first
  /\ mutexes held_by_first !! 7%N = Some (ByDreadlock 0).
Proof.
  assert (reachable header_config held_by_first) as H.
  { left.
    apply (running_step header_config
             (ActLockEntry first_instance "src/a.cpp" 10 0) initial);
      [apply running_initial|reflexivity]. }
  split; [exact H|].
  exact (proj1 (registry_matches_mutexes header_config held_by_first 7%N H)
           {| node_addr := 0; node_info := my_info first_instance "a.cpp" 10 |}
           eq_refl).
Defined.

(** ** A waiter while the holder stays *)

Lemma run_lock_keeps_holder cfg a b sched : forall pc g,
  this_dreadlock b <> this_dreadlock a ->
  Forall (fun t => Forall (foreign a) (before t)) sched ->
  holds a g ->
  holds a (run_lock cfg b pc sched g).1.2.
Proof.
  induction sched as [|t sched IH]; intros pc g Hne Hf Hh.
  - by destruct pc.
  - rewrite run_lock_cons. apply Forall_cons in Hf as [Ht Hf].
    destruct (in_progress pc); [|done].
    destruct (interfere cfg (before t) g) as [g1|] eqn:Hi; [|done].
    pose proof (interfere_foreign_holds cfg a (before t) g g1 Ht Hi Hh) as Hh1.
    pose proof (perform_foreign_holds cfg (ActLockStep b pc (clock t)) a g1
                  (foreign_other_instance a b (ActLockStep b pc (clock t))
                     eq_refl Hne) Hh1) as Hh2.
    rewrite <- lock_step_as_act in Hh2.
    destruct (lock_step cfg b pc (clock t) g1) as [[pc1 g2] ev].
    specialize (IH pc1 g2 Hne Hf Hh2).
    by destruct (run_lock cfg b pc1 sched g2) as [[pc2 g3] ev'].
Qed.

Lemma lock_keeps_holder cfg a b file line now sched g :
  this_dreadlock b <> this_dreadlock a ->
  Forall (fun t => Forall (foreign a) (before t)) sched ->
  holds a g ->
  holds a (lock cfg b file line now sched g).1.2.
Proof.
  intros Hne Hf Hh. unfold lock.
  pose proof (perform_foreign_holds cfg (ActLockEntry b file line now) a g
                (foreign_other_instance a b (ActLockEntry b file line now)
                   eq_refl Hne) Hh) as Hh1.
  rewrite <- lock_entry_as_act in Hh1.
  destruct (lock_entry cfg b file line now g) as [[pc g1] ev].
  pose proof (run_lock_keeps_holder cfg a b sched pc g1 Hne Hf Hh1) as Hh2.
  by destruct (run_lock cfg b pc sched g1) as [[pc1 g2] ev'].
Qed.

(** X2.  Mutual exclusion.  While instance [a] is the recorded holder
    and does not act, a call of [lock] by another instance [b] on the
    same mutex never makes [b] the holder, whatever the other threads
    do and however long the schedule is; if the call returns, it has
    printed the deadlock report. *)
Theorem waiter_never_acquires_while_held cfg a b file line now sched g :
  holds a g ->
  mtx_key b = mtx_key a -> this_dreadlock b <> this_dreadlock a ->
  Forall (fun t => Forall (foreign a) (before t)) sched ->
  holds a (lock cfg b file line now sched g).1.2
  /\ ~ holds b (lock cfg b file line now sched g).1.2
  /\ ((lock cfg b file line now sched g).1.1 = Finished Returned ->
      exists e, e ∈ (lock cfg b file line now sched g).2 /\ is_deadlock e = true).
Proof.
  intros Hh Hk Hne Hf.
  pose proof (lock_keeps_holder cfg a b file line now sched g Hne Hf Hh) as Hend.
  pose proof (holders_exclude a b _ Hk Hne Hend) as Hnb.
  split; [done|]. split; [done|].
  intros Hret.
  destruct (lock cfg b file line now sched g) as [[pc g1] ev] eqn:Hlock.
  simpl in *. subst pc.
  destruct (existsb is_deadlock ev) eqn:Hex.
  - apply existsb_exists in Hex as (e & He & Hd). exists e.
    split; [by apply list_elem_of_In|done].
  - destruct Hnb.
    apply (lock_returned_holds cfg b file line now sched g g1 ev Hlock).
    intros e He. destruct (is_deadlock e) eqn:Hd; [|done].
    assert (existsb is_deadlock ev = true) as Hyes.
    { apply existsb_exists. exists e. split; [by apply list_elem_of_In|done]. }
    congruence.
Qed.

Lemma quiet_schedule_foreign h (sched : list Tick) :
  Forall (fun t => before t = []) sched ->
  Forall (fun t => Forall (foreign h) (before t)) sched.
Proof.
  intros H. eapply Forall_impl; [exact H|]. intros t ->. by apply Forall_nil.
Qed.

Lemma waiter_never_acquires_while_held_witness :
  holds first_instance held_by_first
  /\ ~ holds second_instance
         (lock header_config second_instance "src/b.cpp" 20 0
            timed_out held_by_first).1.2.
Proof.
  assert (holds first_instance held_by_first) as Hh
    by apply (holds_claimed first_instance).
  assert (this_dreadlock second_instance <> this_dreadlock first_instance) as Hne
    by (simpl; discriminate).
  assert (Forall (fun t => Forall (foreign first_instance) (before t)) timed_out)
    as Hf by (apply quiet_schedule_foreign; repeat constructor).
  split; [exact Hh|].
  exact (proj1 (proj2 (waiter_never_acquires_while_held header_config
                         first_instance second_instance "src/b.cpp" 20 0
                         timed_out held_by_first Hh eq_refl Hne Hf))).
Defined.

Lemma deref_node k n g :
  tracking g !! k = Some n ->
  deref {| ptr_key := k; ptr_addr := node_addr n |} g = Some (node_info n).
Proof. intros Ht. unfold deref. simpl. by rewrite Ht, N.eqb_refl. Qed.

Lemma waiting_on_set_reported b m line now n l :
  waiting_on b m line now n (AtLoopTop l) ->
  waiting_on b m line now n (AtLoopTop (set_reported l)).
Proof.
  intros (l0 & [= <-] & Hi & Hm & Hl & Hs). exists (set_reported l). by simpl.
Qed.

(** One region of a waiter whose [info] points to the node that is still
    in the map. *)
Lemma waiting_step cfg b m line now n pc clk g :
  waiting_on b m line now n pc ->
  tracking g !! mtx_key b = Some n ->
  dreadlock_id (node_info n) <> this_dreadlock b ->
  exists pc1 ev,
    lock_step cfg b pc clk g = (pc1, g, ev)
    /\ (waiting_on b m line now n pc1
        /\ (forall e, e ∈ ev -> is_deadlock e = false)
        /\ (in_loop pc = true -> elapsed_ms now clk < DeadlockTimeout cfg ->
            in_loop pc1 = true)
        \/ in_loop pc = false
           /\ pc1 = Finished (if AssertOnDeadlock cfg then AssertionFailed else Returned)
           /\ ev = [EvDeadlock (id b) m line
                      (lock_file (node_info n)) (lock_line (node_info n))]).
Proof.
  intros (l & Hl & Hi & Hm & Hline & Hs) Ht Hid.
  destruct pc as [l0|l0|l0|s]; simpl in Hl; simplify_eq; simpl.
  - rewrite (loop_top_present _ _ _ _ Ht). eexists _, _. split; [done|]. left.
    split; [by exists l|]. split; [|done]. intros e He. by apply elem_of_nil in He.
  - unfold time_check. rewrite Hi, (deref_node _ _ _ Ht).
    destruct (Z.leb_spec (DeadlockTimeout cfg) (elapsed_ms (start l) clk)) as [Hd|Hd].
    + eexists _, _. split; [done|]. left. split; [by exists l|].
      split; [intros e He; by apply elem_of_nil in He|]. intros _ ?. lia.
    + case_match.
      * eexists _, _. split; [done|]. left.
        split; [apply waiting_on_set_reported; by exists l|].
        split; [|done]. by apply no_deadlock_in.
      * eexists _, _. split; [done|]. left. split; [by exists l|].
        split; [|done]. intros e He. by apply elem_of_nil in He.
  - assert (~ holds b g) as Hn by (by rewrite (holds_lookup _ _ _ Ht)).
    rewrite (lock_post_report cfg b l g _ _ Hn Hi (deref_node _ _ _ Ht)).
    eexists _, _. split; [done|]. right. done.
Qed.

Lemma waiting_run cfg a b m line now n sched : forall pc g,
  waiting_on b m line now n pc ->
  tracking g !! mtx_key a = Some n ->
  dreadlock_id (node_info n) = this_dreadlock a ->
  mtx_key b = mtx_key a -> this_dreadlock b <> this_dreadlock a ->
  Forall (fun t => Forall (foreign a) (before t)) sched ->
  (forall s, (run_lock cfg b pc sched g).1.1 = Finished s ->
     s = (if AssertOnDeadlock cfg then AssertionFailed else Returned)
     /\ last (run_lock cfg b pc sched g).2
        = Some (EvDeadlock (id b) m line
                  (lock_file (node_info n)) (lock_line (node_info n))))
  /\ (in_loop pc = true ->
      Forall (fun t => elapsed_ms now (clock t) < DeadlockTimeout cfg) sched ->
      in_loop (run_lock cfg b pc sched g).1.1 = true).
Proof.
  induction sched as [|t sched IH]; intros pc g Hw Ht Hida Hk Hne Hf.
  - destruct Hw as (l & Hl & _). destruct pc; simpl in *; try discriminate;
      (split; [intros s; discriminate|done]).
  - rewrite run_lock_cons. apply Forall_cons in Hf as [Hft Hf].
    assert (in_progress pc = true) as ->
      by (destruct Hw as (l & Hl & _); by destruct pc).
    destruct (interfere cfg (before t) g) as [g1|] eqn:Hi.
    2:{ destruct Hw as (l & Hl & _). destruct pc; simpl in *; try discriminate;
          (split; [intros s; discriminate|done]). }
    assert (holds a g) as Hh by (by exists n).
    pose proof (interfere_foreign_lookup cfg a (before t) g g1 Hft Hi Hh) as Hkeep.
    rewrite Ht in Hkeep.
    assert (tracking g1 !! mtx_key b = Some n) as Htb by (by rewrite Hk).
    assert (dreadlock_id (node_info n) <> this_dreadlock b) as Hidb by congruence.
    destruct (waiting_step cfg b m line now n pc (clock t) g1 Hw Htb Hidb)
      as (pc1 & ev & -> & [(Hw1 & Hev & Hloop)|(Hnl & -> & ->)]).
    + destruct (IH pc1 g1 Hw1 Hkeep Hida Hk Hne Hf) as [IH1 IH2].
      destruct (run_lock cfg b pc1 sched g1) as [[pc2 g3] ev'] eqn:Hrest.
      simpl in *. split.
      * intros s Hs. destruct (IH1 s Hs) as [-> Hlast]. split; [done|].
        rewrite last_app, Hlast. done.
      * intros Hin Hall. apply Forall_cons in Hall as [Hnow Hall].
        apply IH2; [by apply Hloop|done].
    + rewrite run_lock_finished. simpl. split.
      * by intros s [= <-].
      * intros Hin. congruence.
Qed.

(** X3.  Deadlock detection.  While instance [a] is the recorded holder
    and does not act, a call of [lock] by another instance [b] on the
    same mutex can end in one way only: with the deadlock report, which
    names [b]'s mutex, module and line and the location recorded for
    [a], followed by the failed [assert] when [AssertOnDeadlock] is set
    and by a plain return otherwise.  The call does not leave the loop
    before a clock reading has reached [DeadlockTimeout]. *)
Theorem holder_stays_deadlock_report cfg a b file line now sched g n m :
  tracking g !! mtx_key a = Some n ->
  dreadlock_id (node_info n) = this_dreadlock a ->
  mtx_key b = mtx_key a -> this_dreadlock b <> this_dreadlock a ->
  module_of cfg file = Some m ->
  Forall (fun t => Forall (foreign a) (before t)) sched ->
  (forall s, (lock cfg b file line now sched g).1.1 = Finished s ->
     s = (if AssertOnDeadlock cfg then AssertionFailed else Returned)
     /\ last (lock cfg b file line now sched g).2
        = Some (EvDeadlock (id b) m line
                  (lock_file (node_info n)) (lock_line (node_info n))))
  /\ (Forall (fun t => elapsed_ms now (clock t) < DeadlockTimeout cfg) sched ->
      in_loop (lock cfg b file line now sched g).1.1 = true).
Proof.
  intros Ht Hida Hk Hne Hm Hf. unfold lock.
  assert (tracking g !! mtx_key b = Some n) as Htb by (by rewrite Hk).
  assert (dreadlock_id (node_info n) <> this_dreadlock b) as Hidb by congruence.
  rewrite (lock_entry_contended cfg b file line now g m n Hm Htb Hidb).
  match goal with
  | |- context [run_lock cfg b (AtLoopTop ?l) sched g] =>
      assert (waiting_on b m line now n (AtLoopTop l)) as Hw by (by exists l);
      destruct (waiting_run cfg a b m line now n sched (AtLoopTop l) g
                  Hw Ht Hida Hk Hne Hf) as [H1 H2];
      destruct (run_lock cfg b (AtLoopTop l) sched g) as [[pc1 g2] ev1]
  end.
  simpl in *. split.
  - intros s Hs. destruct (H1 s Hs) as [-> Hlast]. split; [done|].
    by rewrite last_app, Hlast.
  - intros Hall. by apply H2.
Qed.

Lemma holder_stays_deadlock_report_witness :
  lock header_config second_instance "src/b.cpp" 20 0 timed_out held_by_first
  = (Finished AssertionFailed, held_by_first,
     [EvDeadlock "mtx" "b.cpp" 20 "a.cpp" 10])
  /\ last (lock header_config second_instance "src/b.cpp" 20 0
             timed_out held_by_first).2
     = Some (EvDeadlock "mtx" "b.cpp" 20 "a.cpp" 10).
Proof.
  assert (lock header_config second_instance "src/b.cpp" 20 0 timed_out held_by_first
          = (Finished AssertionFailed, held_by_first,
             [EvDeadlock "mtx" "b.cpp" 20 "a.cpp" 10])) as Hrun by reflexivity.
  assert (this_dreadlock second_instance <> this_dreadlock first_instance) as Hne
    by (simpl; discriminate).
  assert (Forall (fun t => Forall (foreign first_instance) (before t)) timed_out)
    as Hf by (apply quiet_schedule_foreign; repeat constructor).
  split; [exact Hrun|].
  exact (proj2 (proj1 (holder_stays_deadlock_report header_config
                         first_instance second_instance "src/b.cpp" 20 0
                         timed_out held_by_first
                         {| node_addr := 0;
                            node_info := my_info first_instance "a.cpp" 10 |}
                         "b.cpp" eq_refl eq_refl eq_refl Hne eq_refl Hf)
                 AssertionFailed (f_equal (fun r => r.1.1) Hrun))).
Defined.

(** ** Release and acquisition *)

Lemma released_free h g :
  tracking (released h g) !! mtx_key h = None
  /\ mutexes (released h g) !! mtx_key h = None.
Proof. split; simpl; apply lookup_delete_eq. Qed.

Lemma lock_free cfg h file line now sched g m :
  module_of cfg file = Some m ->
  tracking g !! mtx_key h = None -> mutexes g !! mtx_key h = None ->
  lock cfg h file line now sched g
  = (Finished Returned, claimed h m line g, banner cfg h file line).
Proof.
  intros Hm Ht Hx. unfold lock.
  rewrite (lock_entry_free cfg h file line now g m Hm Ht Hx), run_lock_finished.
  by rewrite app_nil_r.
Qed.

(** X4.  Handover.  A call of [lock] waiting at the top of its loop
    acquires the mutex at the first pass that finds the record gone and
    the real mutex free (the holder has unlocked): it inserts a record
    with its own id, module and line, and returns as the registered
    holder, whatever other instances do between the pass and the
    post-loop check. *)
Theorem waiter_acquires_after_release cfg h l t1 t2 sched g g1 g2 :
  interfere cfg (before t1) g = Some g1 ->
  tracking g1 !! mtx_key h = None -> mutexes g1 !! mtx_key h = None ->
  Forall (foreign h) (before t2) ->
  interfere cfg (before t2) (claimed h (loc_module l) (loc_line l) g1) = Some g2 ->
  run_lock cfg h (AtLoopTop l) (t1 :: t2 :: sched) g = (Finished Returned, g2, [])
  /\ holds h g2
  /\ tracking g2 !! mtx_key h
     = Some {| node_addr := next_addr g1;
               node_info := my_info h (loc_module l) (loc_line l) |}.
Proof.
  intros H1 Ht Hx Hf H2.
  pose proof (holds_claimed h (loc_module l) (loc_line l) g1) as Hc.
  pose proof (interfere_foreign_holds cfg h (before t2) _ g2 Hf H2 Hc) as Hh.
  pose proof (interfere_foreign_lookup cfg h (before t2) _ g2 Hf H2 Hc) as Hl.
  split; [|split; [done|]].
  - rewrite run_lock_cons. simpl in_progress. cbv iota. rewrite H1. simpl lock_step.
    rewrite (loop_top_free h l g1 Ht Hx).
    rewrite run_lock_cons. simpl in_progress. cbv iota. rewrite H2. simpl lock_step.
    rewrite (lock_post_mine cfg h l g2 Hh), run_lock_finished. done.
  - rewrite Hl. simpl. apply lookup_insert_eq.
Qed.

Lemma waiter_acquires_after_release_witness :
  run_lock header_config second_instance (AtLoopTop waiting_second)
    release_then_quiet held_by_first
  = (Finished Returned,
     claimed second_instance "b.cpp" 20 (released first_instance held_by_first),
     []).
Proof.
  apply (waiter_acquires_after_release header_config second_instance
           waiting_second
           {| before := [ActUnlock first_instance "src/a.cpp" 12];
              clock := 2000000 |}
           (quiet 2000000) [] held_by_first
           (released first_instance held_by_first)
           (claimed second_instance "b.cpp" 20
              (released first_instance held_by_first))).
  - reflexivity.
  - reflexivity.
  - reflexivity.
  - by apply Forall_nil.
  - reflexivity.
Defined.

(** X5.  After the holder's [unlock] the mutex is available at once:
    the next call of [lock] on it, by any instance (the one that has
    just unlocked included), takes the fast path and returns as the
    registered holder without entering the wait loop. *)
Theorem unlock_then_lock cfg a b file1 line1 file2 line2 now sched g :
  holds a g -> mtx_key b = mtx_key a ->
  exists ev m,
    unlock cfg a file1 line1 g = (Returned, released a g, ev)
    /\ module_of cfg file2 = Some m
    /\ lock cfg b file2 line2 now sched (released a g)
       = (Finished Returned, claimed b m line2 (released a g),
          banner cfg b file2 line2)
    /\ holds b (claimed b m line2 (released a g)).
Proof.
  intros Hh Hk.
  destruct (module_of_defined cfg file1) as [m1 Hm1].
  destruct (module_of_defined cfg file2) as [m Hm].
  destruct (unlock_mine cfg a file1 line1 g m1 Hm1 Hh) as [ev E].
  exists ev, m. split; [done|]. split; [done|].
  destruct (released_free a g) as [Ht Hx]. rewrite <- Hk in Ht, Hx.
  split; [by apply lock_free|apply holds_claimed].
Qed.

Lemma unlock_then_lock_witness :
  holds first_instance held_by_first
  /\ lock header_config second_instance "src/b.cpp" 20 0 timed_out
       (released first_instance held_by_first)
     = (Finished Returned,
        claimed second_instance "b.cpp" 20 (released first_instance held_by_first),
        []).
Proof.
  assert (holds first_instance held_by_first) as Hh
    by apply (holds_claimed first_instance).
  split; [exact Hh|].
  destruct (unlock_then_lock header_config first_instance second_instance
              "src/a.cpp" 12 "src/b.cpp" 20 0 timed_out held_by_first Hh eq_refl)
    as (ev & m & _ & Hm & Hlock & _).
  injection Hm as <-. exact Hlock.
Defined.

(** X6.  A second [unlock] is caught: after the holder has unlocked,
    another [unlock] on the same instance finds no record, prints the
    unowned-mutex message and fails its [assert]; the real mutex is not
    unlocked a second time. *)
Theorem double_unlock_is_unowned cfg h file1 line1 file2 line2 g :
  holds h g ->
  exists ev m,
    unlock cfg h file1 line1 g = (Returned, released h g, ev)
    /\ module_of cfg file2 = Some m
    /\ unlock cfg h file2 line2 (released h g)
       = (AssertionFailed, released h g, [EvUnowned (id h) m line2]).
Proof.
  intros Hh.
  destruct (module_of_defined cfg file1) as [m1 Hm1].
  destruct (module_of_defined cfg file2) as [m Hm].
  destruct (unlock_mine cfg h file1 line1 g m1 Hm1 Hh) as [ev E].
  exists ev, m. split; [done|]. split; [done|].
  apply unlock_unowned; [done|]. apply released_free.
Qed.

Lemma double_unlock_is_unowned_witness :
  holds first_instance held_by_first
  /\ unlock header_config first_instance "src/a.cpp" 13
       (released first_instance held_by_first)
     = (AssertionFailed, released first_instance held_by_first,
        [EvUnowned "mtx" "a.cpp" 13]).
Proof.
  assert (holds first_instance held_by_first) as Hh
    by apply (holds_claimed first_instance).
  split; [exact Hh|].
  destruct (double_unlock_is_unowned header_config first_instance
              "src/a.cpp" 12 "src/a.cpp" 13 held_by_first Hh)
    as (ev & m & _ & Hm & Hsecond).
  injection Hm as <-. exact Hsecond.
Defined.

(** ** Scopes *)

Lemma holds_destruct h file line g :
  holds (Dreadlock_destruct h file line) g <-> holds h g.
Proof. reflexivity. Qed.

Lemma foreign_destruct h file line a :
  foreign (Dreadlock_destruct h file line) a <-> foreign h a.
Proof. reflexivity. Qed.

Lemma Dreadlock_ctor_now cfg key name file line now sched g :
  Dreadlock_ctor cfg key name file line false now [] sched g
  = ((take_id key name g).1,
     Some (lock cfg (take_id key name g).1 file line now sched
             (take_id key name g).2)).
Proof. reflexivity. Qed.

Lemma Dreadlock_dtor_holder cfg h g :
  holds h g ->
  Dreadlock_dtor cfg h [] g
  = Some (unlock cfg h (dtor_file h) (dtor_unlock_line h) g).
Proof. intros Hh. unfold Dreadlock_dtor. by rewrite (locked_by_me_holds _ _ Hh). Qed.

(** X7.  A scope.  Constructing an instance without [defer] on a mutex
    that is free and has no record locks it at once and records the new
    instance (its id is the counter's value) with the module and line of
    the construction; the destructor at the end of the scope then
    unlocks, and the registry and the real mutexes are exactly as they
    were before the scope. *)
Theorem scoped_lock_round_trip cfg key name file line now sched g :
  tracking g !! key = None -> mutexes g !! key = None ->
  exists h g1 m ev,
    Dreadlock_ctor cfg key name file line false now [] sched g
    = (h, Some (Finished Returned, g1, banner cfg h file line))
    /\ module_of cfg file = Some m
    /\ tracking g1 !! key
       = Some {| node_addr := next_addr g;
                 node_info := {| dreadlock_id := next_id g;
                                 lock_file := m; lock_line := line |} |}
    /\ mutexes g1 !! key = Some (ByDreadlock (next_id g))
    /\ Dreadlock_dtor cfg h [] g1 = Some (Returned, released h g1, ev)
    /\ tracking (released h g1) = tracking g
    /\ mutexes (released h g1) = mutexes g.
Proof.
  intros Ht Hx. destruct (module_of_defined cfg file) as [m Hm].
  destruct (module_of_defined cfg dtor_marker) as [m' Hm'].
  pose (h := (take_id key name g).1). pose (g0 := (take_id key name g).2).
  assert (holds h (claimed h m line g0)) as Hh by apply holds_claimed.
  destruct (unlock_mine cfg h (dtor_file h) (dtor_unlock_line h)
              (claimed h m line g0) m' Hm' Hh) as [ev E].
  exists h, (claimed h m line g0), m, ev.
  split; [|split; [done|split; [|split; [|split; [|split]]]]].
  - rewrite Dreadlock_ctor_now.
    by rewrite (lock_free cfg (take_id key name g).1 file line now sched
                  (take_id key name g).2 m Hm Ht Hx).
  - simpl. apply lookup_insert_eq.
  - simpl. apply lookup_insert_eq.
  - by rewrite (Dreadlock_dtor_holder cfg h _ Hh), E.
  - simpl. rewrite delete_insert_eq. by apply delete_id.
  - simpl. rewrite delete_insert_eq. by apply delete_id.
Qed.

Lemma scoped_lock_round_trip_witness :
  exists h g1 m ev,
    Dreadlock_ctor header_config 7 "mtx" "src/a.cpp" 10 false 0 [] [] initial
    = (h, Some (Finished Returned, g1, banner header_config h "src/a.cpp" 10))
    /\ module_of header_config "src/a.cpp" = Some m
    /\ tracking g1 !! 7%N
       = Some {| node_addr := next_addr initial;
                 node_info := {| dreadlock_id := next_id initial;
                                 lock_file := m; lock_line := 10 |} |}
    /\ mutexes g1 !! 7%N = Some (ByDreadlock (next_id initial))
    /\ Dreadlock_dtor header_config h [] g1 = Some (Returned, released h g1, ev)
    /\ tracking (released h g1) = tracking initial
    /\ mutexes (released h g1) = mutexes initial.
Proof.
  apply (scoped_lock_round_trip header_config 7 "mtx" "src/a.cpp" 10 0 [] initial);
    reflexivity.
Defined.

(** X8.  The macro DREADLOCK_UNLOCK_AND_DESTRUCT used by the holder
    unlocks and records the location; the destructor that runs later
    finds the instance no longer the holder and does nothing, whatever
    other instances have done with the mutex in between (also when one
    of them holds it by then): the mutex is released exactly once. *)
Theorem unlock_and_destruct_releases_once cfg h file line g between g1 acts :
  holds h g ->
  Forall (foreign h) between ->
  interfere cfg between (released h g) = Some g1 ->
  exists ev,
    DREADLOCK_UNLOCK_AND_DESTRUCT cfg h file line g
    = (Dreadlock_destruct h file line, (Returned, released h g, ev))
    /\ Dreadlock_dtor cfg (Dreadlock_destruct h file line) acts g1
       = Some (Returned, g1, []).
Proof.
  intros Hh Hf Hrun.
  destruct (module_of_defined cfg file) as [m Hm].
  destruct (unlock_mine cfg h file line g m Hm Hh) as [ev E].
  exists ev. split.
  - unfold DREADLOCK_UNLOCK_AND_DESTRUCT. by rewrite E.
  - assert (~ holds h (released h g)) as Hn
      by (apply not_holds_absent, released_free).
    pose proof (interfere_foreign_not_holds cfg h between _ g1 Hf Hrun Hn) as Hn1.
    unfold Dreadlock_dtor.
    by rewrite (locked_by_me_not (Dreadlock_destruct h file line) g1 Hn1).
Qed.

Lemma unlock_and_destruct_releases_once_witness :
  holds first_instance held_by_first
  /\ exists ev,
       DREADLOCK_UNLOCK_AND_DESTRUCT header_config first_instance "src/a.cpp" 12
         held_by_first
       = (Dreadlock_destruct first_instance "src/a.cpp" 12,
          (Returned, released first_instance held_by_first, ev))
       /\ Dreadlock_dtor header_config
            (Dreadlock_destruct first_instance "src/a.cpp" 12) []
            (claimed second_instance "b.cpp" 20
               (released first_instance held_by_first))
          = Some (Returned,
                  claimed second_instance "b.cpp" 20
                    (released first_instance held_by_first), []).
Proof.
  assert (holds first_instance held_by_first) as Hh
    by apply (holds_claimed first_instance).
  split; [exact Hh|].
  apply (unlock_and_destruct_releases_once header_config first_instance
           "src/a.cpp" 12 held_by_first
           [ActLockEntry second_instance "src/b.cpp" 20 0]
           (claimed second_instance "b.cpp" 20
              (released first_instance held_by_first)) [] Hh).
  - apply Forall_cons. split; [|by apply Forall_nil].
    intros h' [= <-]. simpl. discriminate.
  - reflexivity.
Defined.

(** ** The clock *)

(** [start] is read once, before the loop. *)
Lemma lock_step_start cfg h pc now g l l' :
  pc_locals pc = Some l ->
  pc_locals (lock_step cfg h pc now g).1.1 = Some l' ->
  start l' = start l.
Proof.
  intros Hl. destruct pc as [l0|l0|l0|s]; simpl in Hl; simplify_eq; simpl.
  - destruct (loop_top_result h l g) as (pc & g1 & -> & [-> | ->]); simpl; congruence.
  - destruct (time_check_result cfg h l now g) as (pc & ev & -> & Hcase); simpl.
    destruct Hcase as [->|[->|[->|[-> _]]]]; simpl; try congruence.
    by intros [= <-].
  - destruct (lock_post_finished cfg h l g) as (s & ev & ->). discriminate.
Qed.

Lemma lock_step_window cfg h pc clk g l :
  pc_locals pc = Some l ->
  ~ (PerformanceTimeout cfg <= elapsed_ms (start l) clk < DeadlockTimeout cfg) ->
  warnings (lock_step cfg h pc clk g).2 = 0%nat.
Proof.
  intros Hl Hw. destruct pc as [l0|l0|l0|s]; simpl in Hl; simplify_eq; simpl.
  - by destruct (loop_top_result h l g) as (pc & g1 & -> & _).
  - unfold time_check.
    destruct (Z.leb_spec (DeadlockTimeout cfg) (elapsed_ms (start l) clk)) as [Hd|Hd];
      [done|].
    destruct (Z.leb_spec (PerformanceTimeout cfg) (elapsed_ms (start l) clk)) as [Hp|Hp];
      [lia|].
    by rewrite andb_false_r.
  - destruct (lock_post_finished cfg h l g) as (s & ev & E).
    unfold lock_post in *. destruct (locked_by_me h g) as [mine g1].
    repeat case_match; reflexivity.
Qed.

Lemma run_lock_window cfg h now sched : forall pc g,
  (forall l, pc_locals pc = Some l -> start l = now) ->
  Forall (fun t => ~ (PerformanceTimeout cfg <= elapsed_ms now (clock t)
                      < DeadlockTimeout cfg)) sched ->
  warnings (run_lock cfg h pc sched g).2 = 0%nat.
Proof.
  induction sched as [|t sched IH]; intros pc g Hs Hall.
  - by destruct pc.
  - rewrite run_lock_cons. apply Forall_cons in Hall as [Ht Hall].
    destruct (in_progress pc) eqn:Hpc; [|done].
    destruct (interfere cfg (before t) g) as [g1|]; [|done].
    destruct (pc_locals pc) as [l|] eqn:Hl; [|by destruct pc].
    pose proof (Hs l eq_refl) as Hnow.
    pose proof (lock_step_window cfg h pc (clock t) g1 l Hl) as Hq.
    rewrite Hnow in Hq. specialize (Hq Ht).
    pose proof (lock_step_start cfg h pc (clock t) g1 l) as Hst.
    destruct (lock_step cfg h pc (clock t) g1) as [[pc1 g2] ev].
    specialize (IH pc1 g2).
    destruct (run_lock cfg h pc1 sched g2) as [[pc2 g3] ev'].
    simpl in *. rewrite warnings_app, Hq, IH; [done| |done].
    intros l1 Hl1. by rewrite (Hst l1 Hl Hl1).
Qed.

(** X9.  The performance warning is printed only at a time check whose
    clock reading lies in the window from [PerformanceTimeout] up to,
    but not including, [DeadlockTimeout] (milliseconds since the wait
    began).  A schedule without such a reading gives no warning; in
    particular a [PerformanceTimeout] that is not below
    [DeadlockTimeout] switches the warning off. *)
Theorem warning_needs_window cfg h file line now sched g :
  (Forall (fun t => ~ (PerformanceTimeout cfg <= elapsed_ms now (clock t)
                       < DeadlockTimeout cfg)) sched ->
   warnings (lock cfg h file line now sched g).2 = 0%nat)
  /\ (DeadlockTimeout cfg <= PerformanceTimeout cfg ->
      warnings (lock cfg h file line now sched g).2 = 0%nat).
Proof.
  assert (Forall (fun t => ~ (PerformanceTimeout cfg <= elapsed_ms now (clock t)
                              < DeadlockTimeout cfg)) sched ->
          warnings (lock cfg h file line now sched g).2 = 0%nat) as Hmain.
  { intros Hall. unfold lock.
    pose proof (lock_entry_warnings cfg h file line now g) as He.
    pose proof (lock_entry_start cfg h file line now g) as Hs.
    destruct (lock_entry cfg h file line now g) as [[pc g1] ev] eqn:Hentry.
    assert (forall l, pc_locals pc = Some l -> start l = now) as Hstart.
    { intros l Hl. destruct pc as [l0|l0|l0|s]; simpl in Hl; simplify_eq.
      - by destruct (Hs l g1 ev eq_refl).
      - unfold lock_entry in Hentry. repeat case_match; discriminate.
      - unfold lock_entry in Hentry. repeat case_match; discriminate. }
    pose proof (run_lock_window cfg h now sched pc g1 Hstart Hall) as Hr.
    destruct (run_lock cfg h pc sched g1) as [[pc1 g2] ev'].
    simpl in *. by rewrite warnings_app, He, Hr. }
  split; [exact Hmain|].
  intros Hle. apply Hmain. apply Forall_forall. intros t _. lia.
Qed.

Lemma warning_needs_window_witness :
  Forall (fun t => ~ (PerformanceTimeout header_config <= elapsed_ms 0 (clock t)
                      < DeadlockTimeout header_config)) timed_out
  /\ warnings (lock header_config second_instance "src/b.cpp" 20 0
                 timed_out held_by_first).2 = 0%nat.
Proof.
  assert (Forall (fun t => ~ (PerformanceTimeout header_config
                              <= elapsed_ms 0 (clock t)
                              < DeadlockTimeout header_config)) timed_out) as H.
  { repeat constructor; vm_compute; intros [H1 H2]; congruence. }
  split; [exact H|].
  exact (proj1 (warning_needs_window header_config second_instance "src/b.cpp"
                  20 0 timed_out held_by_first) H).
Defined.

(** ** A call that has timed out *)

Lemma lock_step_deadlock cfg h pc now g e :
  e ∈ (lock_step cfg h pc now g).2 -> is_deadlock e = true ->
  (lock_step cfg h pc now g).1.1
  = Finished (if AssertOnDeadlock cfg then AssertionFailed else Returned)
  /\ (lock_step cfg h pc now g).1.2 = g
  /\ ~ holds h g.
Proof.
  intros He Hd. destruct pc as [l|l|l|s]; simpl in *.
  - destruct (loop_top_result h l g) as (pc & g1 & E & _). rewrite E in He.
    by apply elem_of_nil in He.
  - assert (forallb (fun e => negb (is_deadlock e)) (time_check cfg h l now g).2
            = true) as Hno by (unfold time_check; by repeat case_match).
    rewrite (no_deadlock_in _ Hno e He) in Hd. discriminate.
  - destruct (holds_dec h g) as [Hh|Hh].
    { rewrite (lock_post_mine _ _ _ _ Hh) in He. by apply elem_of_nil in He. }
    destruct (info l) as [p|] eqn:Hi.
    + destruct (deref p g) as [v|] eqn:Hv.
      * by rewrite (lock_post_report _ _ _ _ _ _ Hh Hi Hv).
      * rewrite (lock_post_freed _ _ _ _ _ Hh Hi Hv) in He.
        by apply elem_of_nil in He.
    + rewrite (lock_post_null _ _ _ _ Hh Hi) in He. by apply elem_of_nil in He.
  - by apply elem_of_nil in He.
Qed.

Lemma run_lock_deadlock cfg h sched : forall pc g e,
  e ∈ (run_lock cfg h pc sched g).2 -> is_deadlock e = true ->
  (run_lock cfg h pc sched g).1.1
  = Finished (if AssertOnDeadlock cfg then AssertionFailed else Returned)
  /\ ~ holds h (run_lock cfg h pc sched g).1.2.
Proof.
  induction sched as [|t sched IH]; intros pc g e He Hd.
  - destruct pc; simpl in He; by apply elem_of_nil in He.
  - rewrite run_lock_cons in He |- *.
    destruct (in_progress pc); [|by apply elem_of_nil in He].
    destruct (interfere cfg (before t) g) as [g1|]; [|by apply elem_of_nil in He].
    pose proof (lock_step_deadlock cfg h pc (clock t) g1 e) as Hstep.
    destruct (lock_step cfg h pc (clock t) g1) as [[pc1 g2] ev] eqn:Hs.
    specialize (IH pc1 g2 e).
    destruct (run_lock cfg h pc1 sched g2) as [[pc2 g3] ev'] eqn:Hrest.
    simpl in *. apply elem_of_app in He as [He|He].
    + destruct (Hstep He Hd) as (-> & -> & Hn).
      rewrite run_lock_finished in Hrest. by injection Hrest as <- <- _.
    + by apply IH.
Qed.

Lemma unlock_not_holder cfg h file line g :
  ~ holds h g ->
  (unlock cfg h file line g).1.1 = AssertionFailed
  /\ (unlock cfg h file line g).1.2 = g.
Proof.
  intros Hn. destruct (module_of_defined cfg file) as [m Hm].
  destruct (tracking g !! mtx_key h) as [n|] eqn:Ht.
  - rewrite (holds_lookup _ _ _ Ht) in Hn.
    by rewrite (unlock_not_owner cfg h file line g m n Hm Ht Hn).
  - by rewrite (unlock_unowned cfg h file line g m Hm Ht).
Qed.

(** X10.  A lock call that has printed the deadlock report ends right
    there, with the failed [assert] or, when [AssertOnDeadlock] is off,
    with a return to the caller, and the caller is not the registered
    holder.  After such a return, [unlock] on the instance fails its
    [assert] without touching the state, and the destructor does
    nothing. *)
Theorem timed_out_call_owns_nothing cfg h file line now sched g e file2 line2 :
  e ∈ (lock cfg h file line now sched g).2 -> is_deadlock e = true ->
  (lock cfg h file line now sched g).1.1
  = Finished (if AssertOnDeadlock cfg then AssertionFailed else Returned)
  /\ ~ holds h (lock cfg h file line now sched g).1.2
  /\ (unlock cfg h file2 line2 (lock cfg h file line now sched g).1.2).1.1
     = AssertionFailed
  /\ (unlock cfg h file2 line2 (lock cfg h file line now sched g).1.2).1.2
     = (lock cfg h file line now sched g).1.2
  /\ forall acts,
       Dreadlock_dtor cfg h acts (lock cfg h file line now sched g).1.2
       = Some (Returned, (lock cfg h file line now sched g).1.2, []).
Proof.
  intros He Hd.
  assert ((lock cfg h file line now sched g).1.1
          = Finished (if AssertOnDeadlock cfg then AssertionFailed else Returned)
          /\ ~ holds h (lock cfg h file line now sched g).1.2) as [Hpc Hn].
  { unfold lock in *.
    assert (forall e0, e0 ∈ (lock_entry cfg h file line now g).2 ->
                       is_deadlock e0 = false) as Hentry.
    { destruct (lock_entry_result cfg h file line now g)
        as [(m & E & _)|[(ev0 & E & (n & Hn & Hid))|(l & ev0 & E & Hev & _)]].
      - rewrite E. apply no_deadlock_in. unfold banner. by destruct (Verbose cfg).
      - destruct (module_of_defined cfg file) as [m Hm].
        rewrite (lock_entry_again cfg h file line now g m n Hm Hn Hid).
        apply no_deadlock_in. unfold banner. by destruct (Verbose cfg).
      - by rewrite E. }
    destruct (lock_entry cfg h file line now g) as [[pc g1] ev].
    pose proof (run_lock_deadlock cfg h sched pc g1 e) as Hrun.
    destruct (run_lock cfg h pc sched g1) as [[pc1 g2] ev'].
    simpl in *. apply elem_of_app in He as [He|He].
    - rewrite (Hentry e He) in Hd. discriminate.
    - by apply Hrun. }
  split; [done|]. split; [done|].
  destruct (unlock_not_holder cfg h file2 line2 _ Hn) as [Hs Hg].
  split; [done|]. split; [done|].
  intros acts. unfold Dreadlock_dtor. by rewrite (locked_by_me_not _ _ Hn).
Qed.

Lemma timed_out_call_owns_nothing_witness :
  lock lenient_config second_instance "src/b.cpp" 20 0 timed_out held_by_first
  = (Finished Returned, held_by_first, [EvDeadlock "mtx" "b.cpp" 20 "a.cpp" 10])
  /\ (unlock lenient_config second_instance "src/b.cpp" 25
        (lock lenient_config second_instance "src/b.cpp" 20 0
           timed_out held_by_first).1.2).1.1
     = AssertionFailed.
Proof.
  split; [reflexivity|].
  apply (timed_out_call_owns_nothing lenient_config second_instance "src/b.cpp"
           20 0 timed_out held_by_first
           (EvDeadlock "mtx" "b.cpp" 20 "a.cpp" 10) "src/b.cpp" 25).
  - apply list_elem_of_here.
  - reflexivity.
Defined.

(** ** Instance ids *)

Lemma perform_next_id cfg a g :
  (next_id g < 2 ^ 32)%N -> (next_id (perform cfg a g).1 < 2 ^ 32)%N.
Proof.
  intros Hb.
  destruct (perform_state cfg a g)
    as [->|[(h & m & line & -> & _)|[(h & -> & _)|[(key & name & ->)
       |[(k' & -> & _)|(k' & -> & _)]]]]]; try done.
  simpl. by apply N.mod_lt.
Qed.

(** The counter stays a [uint32_t]. *)
Lemma reachable_next_id cfg g : reachable cfg g -> (next_id g < 2 ^ 32)%N.
Proof.
  assert (forall g0, running cfg g0 -> (next_id g0 < 2 ^ 32)%N) as Hrun.
  { induction 1 as [|a g0 g' _ IH Hstep]; [done|].
    pose proof (perform_next_id cfg a g0 IH) as Hb. by rewrite Hstep in Hb. }
  intros [Hr|(a & g0 & Hr & ->)]; [by apply Hrun|].
  by apply perform_next_id, Hrun.
Qed.

Lemma construct_all_cons key name specs g :
  construct_all ((key, name) :: specs) g
  = ((take_id key name g).1 :: (construct_all specs (take_id key name g).2).1,
     (construct_all specs (take_id key name g).2).2).
Proof.
  simpl. by destruct (construct_all specs _) as [hs g2].
Qed.

Lemma construct_all_state specs : forall g,
  (next_id g < 2 ^ 32)%N ->
  (next_id (construct_all specs g).2
   = (next_id g + N.of_nat (length specs)) mod 2 ^ 32)%N
  /\ tracking (construct_all specs g).2 = tracking g
  /\ mutexes (construct_all specs g).2 = mutexes g.
Proof.
  induction specs as [|[key name] specs IH]; intros g Hb.
  - simpl. rewrite N.add_0_r, N.mod_small; done.
  - rewrite construct_all_cons. cbn [fst snd].
    destruct (IH (take_id key name g).2) as (Hn & Ht & Hx).
    { simpl. by apply N.mod_lt. }
    split; [|done].
    rewrite Hn. cbn [take_id snd next_id].
    rewrite N.Div0.add_mod_idemp_l. f_equal. simpl length. lia.
Qed.

Lemma construct_all_ids specs : forall g i h,
  (next_id g < 2 ^ 32)%N ->
  (construct_all specs g).1 !! i = Some h ->
  this_dreadlock h = ((next_id g + N.of_nat i) mod 2 ^ 32)%N.
Proof.
  induction specs as [|[key name] specs IH]; intros g i h Hb Hi.
  - done.
  - rewrite construct_all_cons in Hi. cbn [fst] in Hi. destruct i as [|i].
    + injection Hi as <-. simpl. rewrite N.add_0_r, N.mod_small; done.
    + rewrite lookup_cons in Hi.
      rewrite (IH (take_id key name g).2 i h); [|simpl; by apply N.mod_lt|done].
      cbn [take_id snd next_id].
      rewrite N.Div0.add_mod_idemp_l. f_equal. lia.
Qed.

Lemma residues_distinct (a i j : N) :
  (i < 2 ^ 32 -> j < 2 ^ 32 ->
   (a + i) mod 2 ^ 32 = (a + j) mod 2 ^ 32 -> i = j)%N.
Proof.
  change (2 ^ 32)%N with 4294967296%N. intros Hi Hj H.
  pose proof (N.div_mod (a + i) 4294967296 ltac:(discriminate)) as E1.
  pose proof (N.div_mod (a + j) 4294967296 ltac:(discriminate)) as E2.
  pose proof (N.mod_lt (a + i) 4294967296 ltac:(discriminate)) as L1.
  rewrite H in E1.
  remember ((a + i) / 4294967296)%N as q1.
  remember ((a + j) / 4294967296)%N as q2.
  remember ((a + j) mod 4294967296)%N as r.
  lia.
Qed.

(** X11.  Ids.  The constructor gives the [n]-th instance constructed
    after a state the id [next_id + n] modulo 2^32, without touching the
    registry or the mutexes.  Hence any run of at most 2^32 instances
    constructed one after the other has pairwise distinct ids, and the
    instance constructed 2^32 constructions later gets the same id
    again. *)
Theorem constructor_ids cfg specs g :
  reachable cfg g ->
  (forall i h, (construct_all specs g).1 !! i = Some h ->
     this_dreadlock h = ((next_id g + N.of_nat i) mod 2 ^ 32)%N)
  /\ ((N.of_nat (length specs) <= 2 ^ 32)%N ->
      NoDup (this_dreadlock <$> (construct_all specs g).1))
  /\ (forall i j h1 h2,
        (construct_all specs g).1 !! i = Some h1 ->
        (construct_all specs g).1 !! j = Some h2 ->
        (N.of_nat j = N.of_nat i + 2 ^ 32)%N ->
        this_dreadlock h2 = this_dreadlock h1)
  /\ tracking (construct_all specs g).2 = tracking g
  /\ mutexes (construct_all specs g).2 = mutexes g.
Proof.
  intros Hr. pose proof (reachable_next_id cfg g Hr) as Hb.
  assert (length (construct_all specs g).1 = length specs) as Hlen.
  { clear. revert g. induction specs as [|[key name] specs IH]; intros g; [done|].
    rewrite construct_all_cons. simpl. by rewrite IH. }
  split; [|split; [|split]].
  - intros i h. by apply construct_all_ids.
  - intros Hn. apply NoDup_alt. intros i j d Hi Hj.
    rewrite list_lookup_fmap in Hi, Hj.
    destruct ((construct_all specs g).1 !! i) as [h1|] eqn:E1; [|done].
    destruct ((construct_all specs g).1 !! j) as [h2|] eqn:E2; [|done].
    pose proof (lookup_lt_Some _ _ _ E1) as L1.
    pose proof (lookup_lt_Some _ _ _ E2) as L2.
    rewrite Hlen in L1, L2.
    apply (construct_all_ids specs g i h1 Hb) in E1.
    apply (construct_all_ids specs g j h2 Hb) in E2.
    simpl in Hi, Hj. simplify_eq.
    assert (N.of_nat i = N.of_nat j) as Hij; [|lia].
    apply (residues_distinct (next_id g)); [lia|lia|congruence].
  - intros i j h1 h2 E1 E2 Hij.
    rewrite (construct_all_ids specs g i h1 Hb E1).
    rewrite (construct_all_ids specs g j h2 Hb E2).
    rewrite Hij, N.add_assoc.
    rewrite <- (N.Div0.add_mod_idemp_r _ (2 ^ 32)), N.Div0.mod_same, N.add_0_r.
    done.
  - by destruct (construct_all_state specs g Hb) as (_ & Ht & Hx).
Qed.

Lemma constructor_ids_witness :
  reachable header_config held_by_first
  /\ NoDup (this_dreadlock
              <$> (construct_all [(7%N, "mtx"); (7%N, "mtx"); (9%N, "other")]
                     held_by_first).1).
Proof.
  assert (reachable header_config held_by_first) as H.
  { left.
    apply (running_step header_config
             (ActLockEntry first_instance "src/a.cpp" 10 0) initial);
      [apply running_initial|reflexivity]. }
  split; [exact H|].
  apply (proj1 (proj2 (constructor_ids header_config
                         [(7%N, "mtx"); (7%N, "mtx"); (9%N, "other")]
                         held_by_first H))).
  vm_compute. discriminate.
Defined.

(** ** get_module_name: trailing separators *)

(** X12.  [get_module_name] ignores separators at the end of the path:
    the result is the last name that is followed only by separators,
    whether or not a directory part precedes it.  A path made of
    separators only gives the empty name.  Applying the function to its
    own result changes nothing. *)
Theorem get_module_name_trailing_separators name seps :
  has_separator name = false -> name <> "" -> all_separators seps = true ->
  get_module_name (name +:+ seps) = Some name
  /\ (forall dir c, is_separator c = true ->
        get_module_name (dir +:+ String c (name +:+ seps)) = Some name)
  /\ (seps <> "" -> get_module_name seps = Some "")
  /\ (forall path m, get_module_name path = Some m -> get_module_name m = Some m).
Proof.
  intros Hp Hne Hs. split; [|split; [|split]].
  - unfold get_module_name. by rewrite (tokens_tail name seps Hp Hs).
  - intros dir c Hc. by apply get_module_name_before_tail.
  - intros Hseps. unfold get_module_name, tokens.
    by rewrite (regex_search_separators seps Hs Hseps).
  - intros path m Hm. apply get_module_name_plain.
    pose proof (tokens_plain path) as Hall. rewrite Forall_forall in Hall.
    apply Hall. by apply last_Some_elem_of.
Qed.

Lemma get_module_name_trailing_separators_witness :
  get_module_name ("C:\src\" +:+ String "/" ("lock.cpp" +:+ "/\/")) = Some "lock.cpp".
Proof.
  apply (proj1 (proj2 (get_module_name_trailing_separators "lock.cpp" "/\/"
                         eq_refl ltac:(discriminate) eq_refl))).
  reflexivity.
Defined.

(** ** The wait is bounded *)

(** [survives] on a schedule that is not used up, one turn unfolded. *)
Lemma survives_cons cfg h pc t sched g :
  survives cfg h pc (t :: sched) g
  = if in_progress pc then
      match interfere cfg (before t) g with
      | None => false
      | Some g1 =>
          survives cfg h (lock_step cfg h pc (clock t) g1).1.1 sched
            (lock_step cfg h pc (clock t) g1).1.2
      end
    else true.
Proof.
  destruct pc as [l|l|l|s]; simpl; try reflexivity;
    destruct (interfere cfg (before t) g) as [g1|]; try reflexivity.
  - by destruct (loop_top h l g1) as [[? ?] ?].
  - by destruct (time_check cfg h l (clock t) g1) as [[? ?] ?].
  - by destruct (lock_post cfg h l g1) as [[? ?] ?].
Qed.

(** One turn of a run that the process survives. *)
Lemma run_lock_finishes_step cfg h pc t sched sched' g :
  survives cfg h pc (t :: sched) g = true ->
  (forall g1,
     survives cfg h (lock_step cfg h pc (clock t) g1).1.1 sched
       (lock_step cfg h pc (clock t) g1).1.2 = true ->
     exists s g' ev,
       run_lock cfg h (lock_step cfg h pc (clock t) g1).1.1 sched'
         (lock_step cfg h pc (clock t) g1).1.2 = (Finished s, g', ev)) ->
  exists s g' ev, run_lock cfg h pc (t :: sched') g = (Finished s, g', ev).
Proof.
  rewrite survives_cons, run_lock_cons. intros Hs Hrest.
  destruct (in_progress pc) eqn:Hpc.
  - destruct (interfere cfg (before t) g) as [g1|]; [|discriminate].
    destruct (Hrest g1 Hs) as (s & g' & ev' & E).
    destruct (lock_step cfg h pc (clock t) g1) as [[pc1 g2] ev]. simpl in E.
    rewrite E. eauto.
  - destruct pc; try discriminate. eauto.
Qed.

Lemma post_loop_finishes cfg h l t sched sched' g :
  survives cfg h (AtPostLoop l) (t :: sched) g = true ->
  exists s g' ev,
    run_lock cfg h (AtPostLoop l) (t :: sched') g = (Finished s, g', ev).
Proof.
  intros Hs. apply (run_lock_finishes_step cfg h _ t sched sched' g Hs).
  intros g1 _. cbn [lock_step].
  destruct (lock_post_finished cfg h l g1) as (s & ev & ->). cbn [fst snd].
  rewrite run_lock_finished. eauto.
Qed.

Lemma time_check_finishes cfg h l t1 t2 sched sched' g :
  survives cfg h (AtTimeCheck l) (t1 :: t2 :: sched) g = true ->
  DeadlockTimeout cfg <= elapsed_ms (start l) (clock t1) ->
  exists s g' ev,
    run_lock cfg h (AtTimeCheck l) (t1 :: t2 :: sched') g = (Finished s, g', ev).
Proof.
  intros Hs Hd.
  apply (run_lock_finishes_step cfg h _ t1 (t2 :: sched) (t2 :: sched') g Hs).
  intros g1. cbn [lock_step]. unfold time_check. apply Z.leb_le in Hd. rewrite Hd.
  cbn [fst snd]. apply post_loop_finishes.
Qed.

Lemma three_regions_finish cfg h now pc t1 t2 t3 sched g :
  (forall l, pc_locals pc = Some l -> start l = now) ->
  survives cfg h pc [t1; t2; t3] g = true ->
  DeadlockTimeout cfg <= elapsed_ms now (clock t1) ->
  DeadlockTimeout cfg <= elapsed_ms now (clock t2) ->
  exists s g' ev, run_lock cfg h pc (t1 :: t2 :: t3 :: sched) g = (Finished s, g', ev).
Proof.
  intros Hs Hsv D1 D2. destruct pc as [l|l|l|s].
  - apply (run_lock_finishes_step cfg h _ t1 [t2; t3] (t2 :: t3 :: sched) g Hsv).
    intros g1. cbn [lock_step].
    destruct (loop_top_result h l g1) as (pc & g2 & -> & [-> | ->]); cbn [fst snd].
    + intros Hsv1. apply (time_check_finishes cfg h l t2 t3 [] sched g2 Hsv1).
      by rewrite (Hs l eq_refl).
    + apply post_loop_finishes.
  - apply (time_check_finishes cfg h l t1 t2 [t3] (t3 :: sched) g Hsv).
    by rewrite (Hs l eq_refl).
  - by apply (post_loop_finishes cfg h l t1 [t2; t3]).
  - rewrite run_lock_finished. eauto.
Qed.

Lemma run_lock_finishes cfg h now pre t1 t2 t3 post : forall pc g,
  (forall l, pc_locals pc = Some l -> start l = now) ->
  survives cfg h pc (pre ++ [t1; t2; t3]) g = true ->
  DeadlockTimeout cfg <= elapsed_ms now (clock t1) ->
  DeadlockTimeout cfg <= elapsed_ms now (clock t2) ->
  exists s g' ev,
    run_lock cfg h pc (pre ++ t1 :: t2 :: t3 :: post) g = (Finished s, g', ev).
Proof.
  induction pre as [|t pre IH]; intros pc g Hs Hsv D1 D2.
  - by apply (three_regions_finish cfg h now).
  - rewrite <- app_comm_cons in Hsv. rewrite <- app_comm_cons.
    apply (run_lock_finishes_step cfg h pc t _ _ g Hsv). intros g1 Hsv1.
    apply IH; [|done|done|done].
    intros l1 Hl1. destruct (pc_locals pc) as [l|] eqn:Hl.
    + rewrite (lock_step_start cfg h pc (clock t) g1 l l1 Hl Hl1). by apply Hs.
    + destruct pc; discriminate.
Qed.

(** X13.  The wait is bounded.  As long as no other thread ends the
    process while the call is under way, a call of [lock] finishes
    within three regions after two consecutive clock readings have
    reached [DeadlockTimeout], whatever happened in the schedule before,
    unlocks and locks by other instances included: the loop cannot be
    kept alive past the timeout.  What the schedule holds after those
    three regions plays no part. *)
Theorem lock_finishes_once_timed_out cfg h file line now pre t1 t2 t3 post g :
  lock_survives cfg h file line now (pre ++ [t1; t2; t3]) g = true ->
  DeadlockTimeout cfg <= elapsed_ms now (clock t1) ->
  DeadlockTimeout cfg <= elapsed_ms now (clock t2) ->
  exists s g' ev,
    lock cfg h file line now (pre ++ t1 :: t2 :: t3 :: post) g = (Finished s, g', ev).
Proof.
  unfold lock_survives, lock. intros Hsv D1 D2.
  pose proof (lock_entry_start cfg h file line now g) as Hs.
  destruct (lock_entry cfg h file line now g) as [[pc g1] ev] eqn:Hentry.
  assert (forall l, pc_locals pc = Some l -> start l = now) as Hstart.
  { intros l Hl. destruct pc as [l0|l0|l0|s]; simpl in Hl; simplify_eq.
    - by destruct (Hs l g1 ev eq_refl).
    - unfold lock_entry in Hentry. repeat case_match; discriminate.
    - unfold lock_entry in Hentry. repeat case_match; discriminate. }
  destruct (run_lock_finishes cfg h now pre t1 t2 t3 post pc g1 Hstart Hsv D1 D2)
    as (s & g' & ev' & ->).
  eauto.
Qed.

Lemma lock_finishes_once_timed_out_witness :
  lock_survives header_config second_instance "src/b.cpp" 20 0
    (busy_neighbours ++ [quiet 5000000000; quiet 5000500000; quiet 5001000000])
    held_by_first = true
  /\ DeadlockTimeout header_config <= elapsed_ms 0 5000000000
  /\ exists s g' ev,
       lock header_config second_instance "src/b.cpp" 20 0
         (busy_neighbours
          ++ quiet 5000000000 :: quiet 5000500000 :: quiet 5001000000 :: handover)
         held_by_first
       = (Finished s, g', ev).
Proof.
  split; [reflexivity|]. split; [vm_compute; discriminate|].
  apply (lock_finishes_once_timed_out header_config second_instance "src/b.cpp"
           20 0 busy_neighbours (quiet 5000000000) (quiet 5000500000)
           (quiet 5001000000) handover held_by_first);
    [reflexivity|vm_compute; discriminate|vm_compute; discriminate].
Defined.

(** ** The performance warning while the holder stays *)

(** X14.  The performance-warning scenario.  While the recorded holder
    keeps its entry and the warning is enabled, a waiter whose first
    time check reads a clock inside the window prints the warning there,
    naming the holder's recorded file and line, and never again: the
    call prints exactly one warning, however long it goes on. *)
Theorem one_warning_while_held cfg a b file line now t1 t2 sched g n m g1 g2 :
  tracking g !! mtx_key a = Some n ->
  dreadlock_id (node_info n) = this_dreadlock a ->
  mtx_key b = mtx_key a -> this_dreadlock b <> this_dreadlock a ->
  module_of cfg file = Some m ->
  Forall (foreign a) (before t1) -> Forall (foreign a) (before t2) ->
  interfere cfg (before t1) g = Some g1 ->
  interfere cfg (before t2) g1 = Some g2 ->
  PerformanceTimeout cfg <> 0 ->
  PerformanceTimeout cfg <= elapsed_ms now (clock t2) < DeadlockTimeout cfg ->
  warnings (lock cfg b file line now (t1 :: t2 :: sched) g).2 = 1%nat
  /\ EvWaited (id b) m line (PerformanceTimeout cfg)
       (Some (lock_file (node_info n), lock_line (node_info n)))
     ∈ (lock cfg b file line now (t1 :: t2 :: sched) g).2.
Proof.
  intros Ht Hida Hk Hne Hm F1 F2 I1 I2 Hp [Hlo Hhi].
  assert (holds a g) as Hh by (by exists n).
  pose proof (interfere_foreign_lookup cfg a _ g g1 F1 I1 Hh) as L1.
  pose proof (interfere_foreign_holds cfg a _ g g1 F1 I1 Hh) as Hh1.
  pose proof (interfere_foreign_lookup cfg a _ g1 g2 F2 I2 Hh1) as L2.
  rewrite Ht in L1. rewrite L1 in L2. rewrite <- Hk in Ht, L1, L2.
  assert (dreadlock_id (node_info n) <> this_dreadlock b) as Hidb by congruence.
  unfold lock. rewrite (lock_entry_contended cfg b file line now g m n Hm Ht Hidb).
  rewrite run_lock_cons. simpl in_progress. cbv iota. rewrite I1. simpl lock_step.
  rewrite (loop_top_present b _ g1 n L1).
  rewrite run_lock_cons. simpl in_progress. cbv iota. rewrite I2. simpl lock_step.
  unfold time_check. cbn [start reported_performance info loc_module loc_line].
  rewrite (deref_node _ _ _ L2).
  apply Z.leb_gt in Hhi. rewrite Hhi.
  apply Z.eqb_neq in Hp. rewrite Hp.
  apply Z.leb_le in Hlo. rewrite Hlo. cbn [negb andb].
  match goal with
  | |- context [run_lock cfg b (AtLoopTop ?l) sched g2] =>
      pose proof (run_lock_warnings cfg b sched (AtLoopTop l) g2) as Hrest;
      destruct (run_lock cfg b (AtLoopTop l) sched g2) as [[pc2 g3] ev2]
  end.
  simpl in Hrest. cbn [fst snd]. split.
  - rewrite !warnings_app. unfold banner.
    destruct (Verbose cfg); unfold warnings in *; simpl in *; lia.
  - apply elem_of_app. right. apply elem_of_app. right.
    apply elem_of_app. left. apply list_elem_of_here.
Qed.

Lemma one_warning_while_held_witness :
  PerformanceTimeout header_config
  <= elapsed_ms 0 (clock (quiet 1200000000)) < DeadlockTimeout header_config
  /\ warnings (lock header_config second_instance "src/b.cpp" 20 0
                 slow_holder held_by_first).2 = 1%nat.
Proof.
  assert (PerformanceTimeout header_config
          <= elapsed_ms 0 (clock (quiet 1200000000))
          < DeadlockTimeout header_config) as Hw
    by (vm_compute; split; [discriminate|reflexivity]).
  split; [exact Hw|].
  apply (one_warning_while_held header_config first_instance second_instance
           "src/b.cpp" 20 0 (quiet 500000) (quiet 1200000000)
           [quiet 1200500000; quiet 1201000000] held_by_first
           {| node_addr := 0; node_info := my_info first_instance "a.cpp" 10 |}
           "b.cpp" held_by_first held_by_first).
  - reflexivity.
  - reflexivity.
  - reflexivity.
  - simpl. discriminate.
  - reflexivity.
  - by apply Forall_nil.
  - by apply Forall_nil.
  - reflexivity.
  - reflexivity.
  - discriminate.
  - exact Hw.
Defined.

(** ** Other mutexes *)

Lemma same_elsewhere_refl k g : same_elsewhere k g g.
Proof. by split. Qed.

Lemma same_elsewhere_trans k g1 g2 g3 :
  same_elsewhere k g1 g2 -> same_elsewhere k g2 g3 -> same_elsewhere k g1 g3.
Proof.
  intros [N1 H1] [N2 H2]. split; [congruence|].
  intros k' Hk. destruct (H1 k' Hk) as [T1 X1]. destruct (H2 k' Hk) as [T2 X2].
  split; congruence.
Qed.

Lemma same_elsewhere_claimed h m line g :
  same_elsewhere (mtx_key h) g (claimed h m line g).
Proof.
  split; [done|]. intros k' Hk. simpl. by rewrite !lookup_insert_ne.
Qed.

Lemma same_elsewhere_released h g : same_elsewhere (mtx_key h) g (released h g).
Proof.
  split; [done|]. intros k' Hk. simpl. by rewrite !lookup_delete_ne.
Qed.

Lemma lock_step_elsewhere cfg h pc now g :
  same_elsewhere (mtx_key h) g (lock_step cfg h pc now g).1.2.
Proof.
  destruct pc as [l|l|l|s]; simpl.
  - destruct (tracking g !! mtx_key h) as [n|] eqn:Ht.
    + rewrite (loop_top_present _ _ _ _ Ht). apply same_elsewhere_refl.
    + destruct (mutexes g !! mtx_key h) as [o|] eqn:Hx.
      * rewrite (loop_top_outside _ _ _ _ Ht Hx). apply same_elsewhere_refl.
      * rewrite (loop_top_free _ _ _ Ht Hx). apply same_elsewhere_claimed.
  - rewrite time_check_state. apply same_elsewhere_refl.
  - rewrite lock_post_state. apply same_elsewhere_refl.
  - apply same_elsewhere_refl.
Qed.

Lemma lock_entry_elsewhere cfg h file line now g :
  same_elsewhere (mtx_key h) g (lock_entry cfg h file line now g).1.2.
Proof.
  destruct (lock_entry_result cfg h file line now g)
    as [(m & -> & _)|[(ev0 & -> & _)|(l & ev0 & -> & _)]].
  - apply same_elsewhere_claimed.
  - apply same_elsewhere_refl.
  - apply same_elsewhere_refl.
Qed.

Lemma run_lock_elsewhere cfg h sched : forall pc g,
  Forall (fun t => before t = []) sched ->
  same_elsewhere (mtx_key h) g (run_lock cfg h pc sched g).1.2.
Proof.
  induction sched as [|t sched IH]; intros pc g Hq.
  - destruct pc; apply same_elsewhere_refl.
  - rewrite run_lock_cons. apply Forall_cons in Hq as [Ht Hq].
    destruct (in_progress pc); [|apply same_elsewhere_refl].
    rewrite Ht. cbn [interfere].
    pose proof (lock_step_elsewhere cfg h pc (clock t) g) as Hs.
    destruct (lock_step cfg h pc (clock t) g) as [[pc1 g2] ev].
    specialize (IH pc1 g2 Hq).
    destruct (run_lock cfg h pc1 sched g2) as [[pc2 g3] ev'].
    simpl in *. by apply (same_elsewhere_trans _ g g2 g3).
Qed.

(** X15.  Isolation.  Left alone, [lock], [unlock] and the destructor of
    an instance change nothing that concerns another mutex: the record,
    if any, and the lock state of every other mutex are as before, and
    so is the id counter. *)
Theorem own_mutex_only cfg h file line now sched g :
  Forall (fun t => before t = []) sched ->
  same_elsewhere (mtx_key h) g (lock cfg h file line now sched g).1.2
  /\ same_elsewhere (mtx_key h) g (unlock cfg h file line g).1.2
  /\ forall r, Dreadlock_dtor cfg h [] g = Some r ->
               same_elsewhere (mtx_key h) g r.1.2.
Proof.
  intros Hq.
  assert (forall f l, same_elsewhere (mtx_key h) g (unlock cfg h f l g).1.2) as Hun.
  { intros f l. destruct (unlock_state cfg h f l g) as [[-> _]|[-> _]].
    - apply same_elsewhere_refl.
    - apply same_elsewhere_released. }
  split; [|split; [apply Hun|]].
  - unfold lock.
    pose proof (lock_entry_elsewhere cfg h file line now g) as He.
    destruct (lock_entry cfg h file line now g) as [[pc g1] ev].
    pose proof (run_lock_elsewhere cfg h sched pc g1 Hq) as Hr.
    destruct (run_lock cfg h pc sched g1) as [[pc1 g2] ev'].
    simpl in *. by apply (same_elsewhere_trans _ g g1 g2).
  - intros r. unfold Dreadlock_dtor.
    pose proof (locked_by_me_state h g) as Hs.
    destruct (locked_by_me h g) as [mine g1]. simpl in Hs. subst g1.
    destruct mine; simpl; intros [= <-]; [apply Hun|apply same_elsewhere_refl].
Qed.

Lemma own_mutex_only_witness :
  Forall (fun t => before t = []) timed_out
  /\ same_elsewhere 7 held_by_first
       (lock header_config second_instance "src/b.cpp" 20 0
          timed_out held_by_first).1.2.
Proof.
  assert (Forall (fun t => before t = []) timed_out) as H by (by repeat constructor).
  split; [exact H|].
  exact (proj1 (own_mutex_only header_config second_instance "src/b.cpp" 20 0
                  timed_out held_by_first H)).
Defined.

(** ** What the messages say *)

Lemma unlock_mine_events cfg h file line g m n :
  module_of cfg file = Some m ->
  tracking g !! mtx_key h = Some n ->
  dreadlock_id (node_info n) = this_dreadlock h ->
  unlock cfg h file line g
  = (Returned, released h g,
     if Verbose cfg
     then [EvUnlocking (id h) m line (lock_file (node_info n)) (lock_line (node_info n))]
     else []).
Proof.
  intros Hm Ht Hid. assert (holds h g) as Hh by (by exists n).
  unfold unlock. rewrite Hm, (locked_by_me_holds _ _ Hh).
  unfold map_subscript. rewrite Ht. by destruct (Verbose cfg).
Qed.

(** X16.  The location given to [lock] is the one every later message
    reports.  After instance [a] has locked a free mutex at
    [(file1, line1)], the registry holds [a]'s id with the module name of
    [file1] and [line1]; an illegal second [lock] by [a], an [unlock] by
    another instance [b] and (with DREADLOCK_VERBOSE) [a]'s own [unlock]
    all print exactly that module and line as the place where the mutex
    is held. *)
Theorem messages_name_lock_site cfg a b file1 line1 now1 sched1 g
    file2 line2 now2 sched2 m1 m2 :
  tracking g !! mtx_key a = None -> mutexes g !! mtx_key a = None ->
  module_of cfg file1 = Some m1 -> module_of cfg file2 = Some m2 ->
  mtx_key b = mtx_key a -> this_dreadlock b <> this_dreadlock a ->
  let g1 := (lock cfg a file1 line1 now1 sched1 g).1.2 in
  tracking g1 !! mtx_key a
  = Some {| node_addr := next_addr g; node_info := my_info a m1 line1 |}
  /\ lock cfg a file2 line2 now2 sched2 g1
     = (Finished AssertionFailed, g1,
        (banner cfg a file2 line2
         ++ [EvIllegalLock (id a) m2 line2 m1 line1])%list)
  /\ unlock cfg b file2 line2 g1
     = (AssertionFailed, g1,
        [EvIllegalUnlock (id b) (this_dreadlock b) m2 line2
           (this_dreadlock a) m1 line1])
  /\ unlock cfg a file2 line2 g1
     = (Returned, released a g1,
        if Verbose cfg then [EvUnlocking (id a) m2 line2 m1 line1] else []).
Proof.
  intros Ht Hx Hm1 Hm2 Hk Hne g1. subst g1.
  rewrite (lock_free cfg a file1 line1 now1 sched1 g m1 Hm1 Ht Hx). cbn [fst snd].
  set (n := {| node_addr := next_addr g; node_info := my_info a m1 line1 |}).
  assert (tracking (claimed a m1 line1 g) !! mtx_key a = Some n) as Hn
    by (simpl; apply lookup_insert_eq).
  split; [done|]. split; [|split].
  - unfold lock.
    rewrite (lock_entry_again cfg a file2 line2 now2 _ m2 n Hm2 Hn eq_refl).
    by rewrite run_lock_finished, app_nil_r.
  - rewrite <- Hk in Hn.
    by rewrite (unlock_not_owner cfg b file2 line2 _ m2 n Hm2 Hn
                  (not_eq_sym Hne)).
  - by rewrite (unlock_mine_events cfg a file2 line2 _ m2 n Hm2 Hn eq_refl).
Qed.

Lemma messages_name_lock_site_witness :
  unlock header_config second_instance "src/b.cpp" 21
    (lock header_config first_instance "lib/src/a.cpp" 10 0 [] initial).1.2
  = (AssertionFailed,
     (lock header_config first_instance "lib/src/a.cpp" 10 0 [] initial).1.2,
     [EvIllegalUnlock "mtx" 1 "b.cpp" 21 0 "a.cpp" 10]).
Proof.
  assert (this_dreadlock second_instance <> this_dreadlock first_instance) as Hne
    by (simpl; discriminate).
  exact (proj1 (proj2 (proj2 (messages_name_lock_site header_config
                                first_instance second_instance
                                "lib/src/a.cpp" 10 0 [] initial
                                "src/b.cpp" 21 0 [] "a.cpp" "b.cpp"
                                eq_refl eq_refl eq_refl eq_refl eq_refl Hne)))).
Defined.
